(** * Observability stack of @sdods: metrics registry, tracer, logger

    A shallow embedding of [packages/observability/src/index.ts].

    Modelling conventions.
    - JavaScript numbers are modelled by [Z]: the integer fragment of the
      IEEE doubles, on which [+] and [-] are exact while operands and
      results stay within 2^53 in absolute value ([MAX_EXACT]).
      [Number_toString] is the decimal rendering JavaScript gives such
      integers.  Where a statement turns on the arithmetic it carries that
      range as a hypothesis; fractions, larger numbers and [NaN] are outside
      the model.
    - A value of unknown type handed to the logger is plain data ([JsVal]):
      a finite tree without cycles, accessors or [toJSON] methods.
    - Strings are [string] (sequences of one-byte characters).
    - A plain object used as a record ([Record<string, T>]) is the list of
      its own properties in creation order; [own_entries] gives the order in
      which [Object.entries], [Object.keys], spread and [JSON.stringify]
      enumerate them (array-index keys first, ascending, then the others in
      creation order).
    - A JavaScript [Map] is an association list in insertion order.
    - [Math.random] and [Date.now] are oracles carried by the world. *)

From Stdlib Require Import ZArith QArith Qround Lia Ascii String List.
From stdpp Require Import base list strings pretty gmap.

Open Scope Z_scope.

(** ** JavaScript built-ins used by the module *)

Module JS.

Definition dquote : string := String "034"%char EmptyString.
Definition newline : string := String "010"%char EmptyString.

(** [s.indexOf(c)] for a one-character needle. *)
Fixpoint indexOf (c : ascii) (s : string) : option nat :=
  match s with
  | EmptyString => None
  | String a r => if Ascii.eqb a c then Some 0%nat else S <$> indexOf c r
  end.

(** [s.includes(c)] *)
Definition includes (c : ascii) (s : string) : bool :=
  match indexOf c s with Some _ => true | None => false end.

(** [s.slice(n)] *)
Fixpoint slice_from (n : nat) (s : string) : string :=
  match n, s with
  | O, _ => s
  | S n', String _ r => slice_from n' r
  | S _, EmptyString => EmptyString
  end.

(** [s.slice(0, n)] *)
Fixpoint slice_to (n : nat) (s : string) : string :=
  match n, s with
  | S n', String a r => String a (slice_to n' r)
  | _, _ => EmptyString
  end.

(** [s.split(c)[0]]: everything before the first [c]. *)
Fixpoint split_head (c : ascii) (s : string) : string :=
  match s with
  | EmptyString => EmptyString
  | String a r => if Ascii.eqb a c then EmptyString else String a (split_head c r)
  end.

(** [s.replace(c, r)] with a string pattern: the first occurrence only. *)
Fixpoint replace_first (c : ascii) (by_ : string) (s : string) : string :=
  match s with
  | EmptyString => EmptyString
  | String a r =>
      if Ascii.eqb a c then by_ +:+ r else String a (replace_first c by_ r)
  end.

(** [parts.join(sep)] *)
Fixpoint join (sep : string) (parts : list string) : string :=
  match parts with
  | [] => EmptyString
  | x :: r =>
      match r with
      | [] => x
      | _ :: _ => x +:+ sep +:+ join sep r
      end
  end.

(** [String(n)] / template interpolation of an integer-valued number. *)
Definition Number_toString (n : Z) : string := pretty n.

(** [x || 0] on the result of [Map.get]: [undefined] and [0] are falsy. *)
Definition or_zero (x : option Z) : Z :=
  match x with
  | Some v => if v =? 0 then 0 else v
  | None => 0
  end.

(** [values.reduce((a, b) => a + b, 0)] *)
Definition sum (values : list Z) : Z := fold_left Z.add values 0.

Section Assoc.
Context {V : Type}.

(** [Map.prototype.get] *)
Fixpoint Map_get (k : string) (m : list (string * V)) : option V :=
  match m with
  | [] => None
  | (k', v) :: r => if String.eqb k' k then Some v else Map_get k r
  end.

(** [Map.prototype.set]: an existing key keeps its position, a new key is
    appended.  Assigning a property of a plain object behaves the same on
    the creation-order list. *)
Fixpoint Map_set (k : string) (v : V) (m : list (string * V)) : list (string * V) :=
  match m with
  | [] => [(k, v)]
  | (k', v') :: r =>
      if String.eqb k' k then (k', v) :: r else (k', v') :: Map_set k v r
  end.

(** An object literal [{k1: v1, k2: v2, ...}] (also with spreads laid out
    in order): properties are defined left to right. *)
Definition obj_literal (props : list (string * V)) : list (string * V) :=
  fold_left (fun o p => Map_set p.1 p.2 o) props [].

(** Array-index keys: canonical decimal numerals below 2^32 - 1. *)
Definition digit (a : ascii) : option N :=
  let n := N_of_ascii a in
  if ((48 <=? n) && (n <=? 57))%N then Some (n - 48)%N else None.

Fixpoint digits (acc : N) (s : string) : option N :=
  match s with
  | EmptyString => Some acc
  | String a r =>
      match digit a with
      | Some d => digits (acc * 10 + d)%N r
      | None => None
      end
  end.

Definition array_index (k : string) : option N :=
  match k with
  | EmptyString => None
  | String a r =>
      if Ascii.eqb a "0"%char && negb (String.eqb r EmptyString) then None
      else match digits 0%N k with
           | Some n => if (n <? 4294967295)%N then Some n else None
           | None => None
           end
  end.

Fixpoint insert_index (n : N) (p : string * V) (l : list (N * (string * V)))
  : list (N * (string * V)) :=
  match l with
  | [] => [(n, p)]
  | (m, q) :: r =>
      if (n <? m)%N then (n, p) :: l else (m, q) :: insert_index n p r
  end.

Fixpoint index_props (o : list (string * V)) : list (N * (string * V)) :=
  match o with
  | [] => []
  | p :: r =>
      match array_index p.1 with
      | Some n => insert_index n p (index_props r)
      | None => index_props r
      end
  end.

Fixpoint named_props (o : list (string * V)) : list (string * V) :=
  match o with
  | [] => []
  | p :: r =>
      match array_index p.1 with
      | Some _ => named_props r
      | None => p :: named_props r
      end
  end.

(** [Object.entries(o)] *)
Definition own_entries (o : list (string * V)) : list (string * V) :=
  map snd (index_props o) ++ named_props o.
End Assoc.

End JS.

(** ** Metrics *)

Module Metrics.
Import JS.

Definition Labels := list (string * string).

Record MetricsConfig := {
  service : string;
  endpoint : option string;
  prefix : option string;
}.

Record t := {
  config : MetricsConfig;
  counters : list (string * Z);
  gauges : list (string * Z);
  histograms : list (string * list Z);
}.

(** The constructor: [{ prefix: '', ...config }] and three empty maps. *)
Definition new (cfg : MetricsConfig) : t :=
  {| config := {| service := service cfg;
                  endpoint := endpoint cfg;
                  prefix := Some (default EmptyString (prefix cfg)) |};
     counters := [];
     gauges := [];
     histograms := [] |}.

Definition label_pair (kv : string * string) : string :=
  kv.1 +:+ "=" +:+ dquote +:+ kv.2 +:+ dquote.

Definition getKey (m : t) (name : string) (labels : option Labels) : string :=
  let prefix :=
    match prefix (config m) with
    | Some p => if String.eqb p EmptyString then EmptyString else p +:+ "_"
    | None => EmptyString
    end in
  let labelStr :=
    match labels with
    | Some l => join "," (map label_pair (own_entries l))
    | None => EmptyString
    end in
  prefix +:+ name +:+ "{" +:+ labelStr +:+ "}".

Definition with_counters (m : t) (c : list (string * Z)) : t :=
  {| config := config m; counters := c; gauges := gauges m;
     histograms := histograms m |}.

Definition with_gauges (m : t) (g : list (string * Z)) : t :=
  {| config := config m; counters := counters m; gauges := g;
     histograms := histograms m |}.

Definition with_histograms (m : t) (h : list (string * list Z)) : t :=
  {| config := config m; counters := counters m; gauges := gauges m;
     histograms := h |}.

(** [counter(name).inc(value = 1, labels?)] *)
Definition counter_inc (name : string) (value : option Z)
    (labels : option Labels) (m : t) : t :=
  let value := default 1 value in
  let key := getKey m name labels in
  let current := or_zero (Map_get key (counters m)) in
  with_counters m (Map_set key (current + value) (counters m)).

(** [gauge(name).set(value, labels?)] *)
Definition gauge_set (name : string) (value : Z)
    (labels : option Labels) (m : t) : t :=
  let key := getKey m name labels in
  with_gauges m (Map_set key value (gauges m)).

(** [gauge(name).inc(value = 1, labels?)] *)
Definition gauge_inc (name : string) (value : option Z)
    (labels : option Labels) (m : t) : t :=
  let value := default 1 value in
  let key := getKey m name labels in
  let current := or_zero (Map_get key (gauges m)) in
  with_gauges m (Map_set key (current + value) (gauges m)).

(** [gauge(name).dec(value = 1, labels?)] *)
Definition gauge_dec (name : string) (value : option Z)
    (labels : option Labels) (m : t) : t :=
  let value := default 1 value in
  let key := getKey m name labels in
  let current := or_zero (Map_get key (gauges m)) in
  with_gauges m (Map_set key (current - value) (gauges m)).

(** [histogram(name).observe(value, labels?)]: the stored array is extended
    in place and stored again under its key. *)
Definition histogram_observe (name : string) (value : Z)
    (labels : option Labels) (m : t) : t :=
  let key := getKey m name labels in
  let values := default [] (Map_get key (histograms m)) in
  with_histograms m (Map_set key (values ++ [value]) (histograms m)).

(** The pieces [toPrometheus] cuts a series key into. *)
Definition series_name (key : string) : string := split_head "{"%char key.

Definition label_portion (key : string) : string :=
  if includes "{"%char key
  then slice_from (default 0%nat (indexOf "{"%char key)) key
  else "{}".

Definition scalar_lines (kind : string) (kv : string * Z) : list string :=
  [ "# TYPE " +:+ series_name kv.1 +:+ " " +:+ kind;
    kv.1 +:+ " " +:+ Number_toString kv.2 ].

Definition histogram_lines (kv : string * list Z) : list string :=
  let key := kv.1 in
  let values := kv.2 in
  let name := series_name key in
  let sum := sum values in
  let count := Z.of_nat (length values) in
  [ "# TYPE " +:+ name +:+ " histogram";
    replace_first "}"%char (",le=" +:+ dquote +:+ "+Inf" +:+ dquote +:+ "}") key
      +:+ " " +:+ Number_toString count;
    name +:+ "_sum" +:+ label_portion key +:+ " " +:+ Number_toString sum;
    name +:+ "_count" +:+ label_portion key +:+ " " +:+ Number_toString count ].

Definition prometheus_lines (m : t) : list string :=
  flat_map (scalar_lines "counter") (counters m)
  ++ flat_map (scalar_lines "gauge") (gauges m)
  ++ flat_map histogram_lines (histograms m).

Definition toPrometheus (m : t) : string :=
  join newline (prometheus_lines m).

End Metrics.

(** Vocabulary for the statements about histograms: a run of [observe]
    calls and the samples such a run files under one series key. *)
Module MetricsRuns.
Import JS Metrics.

Definition observation := (string * Z * option Labels)%type.

Definition observe_all (obs : list observation) (m : t) : t :=
  fold_left (fun m o => histogram_observe o.1.1 o.1.2 o.2 m) obs m.


Definition increment := (string * option Z * option Labels)%type.

(** A run of [counter(name).inc(value, labels)] calls. *)
Definition inc_all (calls : list increment) (m : t) : t :=
  fold_left (fun m c => counter_inc c.1.1 c.1.2 c.2 m) calls m.

(** The value a call adds: the argument, or the default 1. *)
Definition added (c : increment) : Z := default 1 c.1.2.

(** The integer fragment.  A double holds every integer from [-2^53] to
    [2^53], and on such integers [+] and [-] of doubles return the exact
    result whenever that result lies in the same range.  Statements about
    stored values are made for runs that stay in this range; fractions,
    larger numbers and [NaN] are outside the model. *)
Definition MAX_EXACT : Z := 2 ^ 53.

Definition exact (n : Z) : Prop := - MAX_EXACT <= n <= MAX_EXACT.

(** The absolute values of a list of numbers added up: it bounds every sum
    of a selection of them, in any order. *)
Definition magnitude (values : list Z) : Z :=
  fold_right Z.add 0 (map Z.abs values).

Definition cfg0 : MetricsConfig :=
  {| service := "svc"; endpoint := None; prefix := None |}.



End MetricsRuns.


(** ** Values, objects and the world *)

(** [packages/core/src/index.ts]: the two environment flags the module
    imports. *)
Module Core.

Definition isDev (NODE_ENV : option string) : bool :=
  match NODE_ENV with
  | Some s => String.eqb s "development"
  | None => false
  end.

Definition isProd (NODE_ENV : option string) : bool :=
  match NODE_ENV with
  | Some s => String.eqb s "production"
  | None => false
  end.

End Core.

(** The values a caller can hand to the logger as context ([unknown]). *)
#[warnings="-register-all"]
Inductive JsVal :=
  | JUndefined
  | JNull
  | JBool (b : bool)
  | JNum (n : Z)
  | JStr (s : string)
  | JBigInt (n : Z)
  | JArr (xs : list JsVal)
  | JObj (props : list (string * JsVal)).

(** An [Error] instance. *)
Record ErrorObj := {
  err_name : string;
  err_message : string;
  err_stack : option string;
}.

(** What a [throw] (or a rejected promise) carries. *)
Inductive Thrown :=
  | ErrorInstance (e : ErrorObj)
  | NonError (v : JsVal).

Definition TypeError (message : string) : Thrown :=
  ErrorInstance {| err_name := "TypeError"; err_message := message;
                   err_stack := None |}.

Module Span.

Inductive Status := ok | error | unset.

Inductive AttrVal :=
  | AStr (s : string)
  | ANum (n : Z)
  | ABool (b : bool).

Record SpanEvent := {
  ev_name : string;
  ev_timestamp : Z;
  ev_attributes : option (list (string * JsVal));
}.

(** The data fields of the [Span] interface. *)
Record t := {
  name : string;
  traceId : string;
  spanId : string;
  startTime : Z;
  endTime : option Z;
  attributes : gmap string AttrVal;
  events : list SpanEvent;
  status : Status;
}.

Definition with_attributes (s : t) (a : gmap string AttrVal) : t :=
  {| name := name s; traceId := traceId s; spanId := spanId s;
     startTime := startTime s; endTime := endTime s; attributes := a;
     events := events s; status := status s |}.

Definition with_events (s : t) (e : list SpanEvent) : t :=
  {| name := name s; traceId := traceId s; spanId := spanId s;
     startTime := startTime s; endTime := endTime s;
     attributes := attributes s; events := e; status := status s |}.

Definition with_status (s : t) (st : Status) : t :=
  {| name := name s; traceId := traceId s; spanId := spanId s;
     startTime := startTime s; endTime := endTime s;
     attributes := attributes s; events := events s; status := st |}.

Definition with_endTime (s : t) (e : option Z) : t :=
  {| name := name s; traceId := traceId s; spanId := spanId s;
     startTime := startTime s; endTime := e;
     attributes := attributes s; events := events s; status := status s |}.

(** The arguments of a method call on a span. *)
Inductive Call :=
  | setAttribute (key : string) (value : AttrVal)
  | addEvent (name : string) (attributes : option (list (string * JsVal)))
  | setStatus (status : Status) (message : option string)
  | end_.

End Span.

Record TracerConfig := {
  tr_service : string;
  tr_endpoint : option string;
  sampleRate : option Q;
}.

Module Level.

Inductive t := debug | info | warn | error | fatal.

End Level.

Module Log.

Record Entry := {
  level : Level.t;
  message : string;
  timestamp : Z;
  service : string;
  context : option (list (string * JsVal));
  error : option ErrorObj;
  traceId : option string;
  spanId : option string;
}.

End Log.

(** Objects are held in a heap and referred to by address, so that the
    span a caller holds, the span the tracer registered and the span handed
    to the completion callback are one object. *)
Definition addr := nat.

Inductive Obj :=
  (** an instance of [class SpanImpl]; [onEnd] is the arrow function
      [startSpan] passes, which closes over the tracer (its address and
      its configuration, fixed at construction) *)
  | SpanImpl (fields : Span.t) (tracer : addr) (config : TracerConfig)
  (** the object literal [startSpan] returns for an unsampled call *)
  | NoopSpan (fields : Span.t)
  (** the [{}] the mutators of that literal return *)
  | EmptyObject
  (** an instance of [class Tracer] *)
  | TracerObj (config : TracerConfig) (spans : list addr).

Inductive ConsoleMethod := console_log | console_warn | console_error.

(** What a run leaves to be observed: console output, plus the calls a test
    would put a spy on (methods of a span, the tracer's completion callback,
    the logger's custom handler). *)
Inductive Event :=
  | Console (method : ConsoleMethod) (line : string)
  | Called (span : addr) (call : Span.Call)
  | Completed (tracer : addr) (span : addr)
  | Handled (entry : Log.Entry).

Record World := {
  NODE_ENV : option string;
  heap : list Obj;
  random : nat -> Q;
  draws : nat;
  clock : nat -> Z;
  ticks : nat;
  observed : list Event;
}.

Definition with_heap (w : World) (h : list Obj) : World :=
  {| NODE_ENV := NODE_ENV w; heap := h; random := random w; draws := draws w;
     clock := clock w; ticks := ticks w; observed := observed w |}.

Definition with_draws (w : World) (n : nat) : World :=
  {| NODE_ENV := NODE_ENV w; heap := heap w; random := random w; draws := n;
     clock := clock w; ticks := ticks w; observed := observed w |}.

Definition with_ticks (w : World) (n : nat) : World :=
  {| NODE_ENV := NODE_ENV w; heap := heap w; random := random w;
     draws := draws w; clock := clock w; ticks := n; observed := observed w |}.

Definition with_observed (w : World) (o : list Event) : World :=
  {| NODE_ENV := NODE_ENV w; heap := heap w; random := random w;
     draws := draws w; clock := clock w; ticks := ticks w; observed := o |}.

(** A computation either returns or throws, and changes the world. *)
Inductive Outcome (A : Type) : Type :=
  | Return (a : A)
  | Throw (e : Thrown).
Arguments Return {A} a.
Arguments Throw {A} e.

Definition M (A : Type) : Type := World -> Outcome A * World.

Definition ret {A} (a : A) : M A := fun w => (Return a, w).

Definition throw {A} (e : Thrown) : M A := fun w => (Throw e, w).

Definition bind {A B} (c : M A) (k : A -> M B) : M B :=
  fun w =>
    match c w with
    | (Return a, w') => k a w'
    | (Throw e, w') => (Throw e, w')
    end.

Declare Scope js_scope.
Delimit Scope js_scope with js.
Notation "x <- c ;; k" := (bind c (fun x => k))
  (at level 100, c at next level, right associativity) : js_scope.
Notation "c ;;; k" := (bind c (fun _ => k))
  (at level 100, right associativity) : js_scope.
Open Scope js_scope.

(** [try { body } catch (e) { handler } finally { finalizer }]: the
    finalizer runs on every path; when it completes normally the completion
    of the body (or of the handler) stands. *)
Definition try_catch_finally {A} (body : M A) (handler : Thrown -> M A)
    (finalizer : M unit) : M A :=
  fun w =>
    let '(completion, w1) :=
      match body w with
      | (Return a, w') => (Return a, w')
      | (Throw e, w') => handler e w'
      end in
    match finalizer w1 with
    | (Return _, w2) => (completion, w2)
    | (Throw e, w2) => (Throw e, w2)
    end.

Definition observe (e : Event) : M unit :=
  fun w => (Return tt, with_observed w (observed w ++ [e])).

(** [Math.random()] *)
Definition Math_random : M Q :=
  fun w => (Return (random w (draws w)), with_draws w (S (draws w))).

(** [Date.now()], and the instant of [new Date()] *)
Definition Date_now : M Z :=
  fun w => (Return (clock w (ticks w)), with_ticks w (S (ticks w))).

Definition console (method : ConsoleMethod) (line : string) : M unit :=
  observe (Console method line).

(** Allocation of a fresh object. *)
Definition alloc (o : Obj) : M addr :=
  fun w => (Return (length (heap w)), with_heap w (heap w ++ [o])).

Definition read (a : addr) : M (option Obj) :=
  fun w => (Return (heap w !! a), w).

Definition write (a : addr) (o : Obj) : M unit :=
  fun w => (Return tt, with_heap w (<[a := o]> (heap w))).

(** ** Tracer *)

Module Tracing.
Import JS.

Record SpanOptions := {
  opt_attributes : option (gmap string Span.AttrVal);
  opt_parent : option addr;
}.

Definition no_options : SpanOptions :=
  {| opt_attributes := None; opt_parent := None |}.

Definition chars : string := "0123456789abcdef".

(** [result += chars[i]]: an index outside the string reads [undefined],
    which string concatenation spells out. *)
Definition char_at (s : string) (i : Z) : string :=
  if i <? 0 then "undefined"
  else match String.get (Z.to_nat i) s with
       | Some c => String c EmptyString
       | None => "undefined"
       end.

Fixpoint generateId_loop (remaining : nat) (result : string) : M string :=
  match remaining with
  | O => ret result
  | S n =>
      r <- Math_random ;;
      generateId_loop n
        (result +:+ char_at chars
           (Qfloor (r * inject_Z (Z.of_nat (String.length chars)))))
  end.

Definition generateId (length : nat) : M string :=
  generateId_loop length EmptyString.

(** The constructor of [Tracer]: [{ sampleRate: 1.0, ...config }] and an
    empty span list. *)
Definition new_Tracer (config : TracerConfig) : M addr :=
  alloc (TracerObj
           {| tr_service := tr_service config;
              tr_endpoint := tr_endpoint config;
              sampleRate := Some (default 1%Q (sampleRate config)) |}
           []).

(** [this.config.sampleRate || 1.0]: [undefined] and [0] are falsy. *)
Definition sampleRate_or_one (config : TracerConfig) : Q :=
  match sampleRate config with
  | Some s => if Qeq_bool s 0 then 1%Q else s
  | None => 1%Q
  end.

Definition Qlt_bool (x y : Q) : bool := negb (Qle_bool y x).

Definition shouldSample (config : TracerConfig) : M bool :=
  r <- Math_random ;;
  ret (Qlt_bool r (sampleRate_or_one config)).

(** [this.onSpanEnd(span)], reached through the [onEnd] closure of a
    [SpanImpl]. *)
Definition onSpanEnd (tracer : addr) (config : TracerConfig) (span : addr)
    (fields : Span.t) : M unit :=
  observe (Completed tracer span) ;;;
  env <- (fun w => (Return (NODE_ENV w), w)) ;;
  (if Core.isDev env then
     finish <- match Span.endTime fields with
               | Some e => if e =? 0 then Date_now else ret e
               | None => Date_now
               end ;;
     let duration := finish - Span.startTime fields in
     console console_log
       ("[TRACE] " +:+ Span.name fields +:+ " (" +:+ Number_toString duration
        +:+ "ms) trace=" +:+ slice_to 8 (Span.traceId fields))
   else ret tt) ;;;
  (* the production branch has an empty body *)
  ret tt.

(** Calling a method the object does not have. *)
Definition not_a_function (method : string) : Thrown :=
  TypeError ("span." +:+ method +:+ " is not a function").

(** [attributes[key] = value] on the plain object [attributes], for a
    primitive [value].  The name [__proto__] is an accessor inherited from
    [Object.prototype] whose setter ignores a primitive, so the assignment
    stores nothing; only when the object has an own property of that name
    (copied in by the spread of [options.attributes]) is that property
    written.  Every other name is created or overwritten. *)
Definition assign_attribute (key : string) (value : Span.AttrVal)
    (attributes : gmap string Span.AttrVal) : gmap string Span.AttrVal :=
  match attributes !! key with
  | Some _ => <[key := value]> attributes
  | None =>
      if String.eqb key "__proto__" then attributes
      else <[key := value]> attributes
  end.

(** [span.setAttribute(key, value)] *)
Definition setAttribute (span : addr) (key : string) (value : Span.AttrVal)
    : M addr :=
  o <- read span ;;
  match o with
  | Some (SpanImpl f t c) =>
      observe (Called span (Span.setAttribute key value)) ;;;
      write span
        (SpanImpl
           (Span.with_attributes f
              (assign_attribute key value (Span.attributes f)))
           t c) ;;;
      ret span
  | Some (NoopSpan _) =>
      observe (Called span (Span.setAttribute key value)) ;;;
      alloc EmptyObject
  | _ => throw (not_a_function "setAttribute")
  end.

(** [span.addEvent(name, attributes?)] *)
Definition addEvent (span : addr) (name : string)
    (attributes : option (list (string * JsVal))) : M addr :=
  o <- read span ;;
  match o with
  | Some (SpanImpl f t c) =>
      observe (Called span (Span.addEvent name attributes)) ;;;
      now <- Date_now ;;
      write span
        (SpanImpl
           (Span.with_events f
              (Span.events f ++
               [ {| Span.ev_name := name; Span.ev_timestamp := now;
                    Span.ev_attributes := attributes |} ]))
           t c) ;;;
      ret span
  | Some (NoopSpan _) =>
      observe (Called span (Span.addEvent name attributes)) ;;;
      alloc EmptyObject
  | _ => throw (not_a_function "addEvent")
  end.

(** [if (message)]: [undefined] and the empty string are falsy. *)
Definition truthy (message : option string) : option string :=
  match message with
  | Some s => if String.eqb s EmptyString then None else Some s
  | None => None
  end.

(** [span.setStatus(status, message?)] *)
Definition setStatus (span : addr) (status : Span.Status)
    (message : option string) : M addr :=
  o <- read span ;;
  match o with
  | Some (SpanImpl f t c) =>
      observe (Called span (Span.setStatus status message)) ;;;
      let f1 := Span.with_status f status in
      let f2 :=
        match truthy message with
        | Some s =>
            Span.with_attributes f1
              (<["status.message" := Span.AStr s]> (Span.attributes f1))
        | None => f1
        end in
      write span (SpanImpl f2 t c) ;;;
      ret span
  | Some (NoopSpan _) =>
      observe (Called span (Span.setStatus status message)) ;;;
      alloc EmptyObject
  | _ => throw (not_a_function "setStatus")
  end.

(** [span.end()] *)
Definition end_ (span : addr) : M unit :=
  o <- read span ;;
  match o with
  | Some (SpanImpl f t c) =>
      observe (Called span Span.end_) ;;;
      now <- Date_now ;;
      let f' := Span.with_endTime f (Some now) in
      write span (SpanImpl f' t c) ;;;
      onSpanEnd t c span f'
  | Some (NoopSpan _) => observe (Called span Span.end_)
  | _ => throw (not_a_function "end")
  end.

(** [options.parent?.traceId]: [None] stands for [undefined]. *)
Definition parent_traceId (options : SpanOptions) : M (option string) :=
  match opt_parent options with
  | None => ret None
  | Some p =>
      o <- read p ;;
      match o with
      | Some (SpanImpl f _ _) => ret (Some (Span.traceId f))
      | Some (NoopSpan f) => ret (Some (Span.traceId f))
      | _ => ret None
      end
  end.

Definition noop_fields (name : string) : Span.t :=
  {| Span.name := name; Span.traceId := EmptyString;
     Span.spanId := EmptyString; Span.startTime := 0; Span.endTime := None;
     Span.attributes := ∅; Span.events := []; Span.status := Span.unset |}.

(** [tracer.startSpan(name, options = {})] *)
Definition startSpan (this : addr) (name : string) (options : SpanOptions)
    : M addr :=
  o <- read this ;;
  match o with
  | Some (TracerObj config spans) =>
      sampled <- shouldSample config ;;
      if negb sampled then alloc (NoopSpan (noop_fields name))
      else
        inherited <- parent_traceId options ;;
        traceId <- match truthy inherited with
                   | Some id => ret id
                   | None => generateId 32
                   end ;;
        (* new SpanImpl(name, traceId, options, onEnd) *)
        spanId <- generateId 16 ;;
        startTime <- Date_now ;;
        span <- alloc (SpanImpl
                         {| Span.name := name; Span.traceId := traceId;
                            Span.spanId := spanId;
                            Span.startTime := startTime;
                            Span.endTime := None;
                            Span.attributes :=
                              default ∅ (opt_attributes options);
                            Span.events := []; Span.status := Span.unset |}
                         this config) ;;
        (* this.spans.push(span) *)
        write this (TracerObj config (spans ++ [span])) ;;;
        ret span
  | _ => throw (TypeError "this.shouldSample is not a function")
  end.

(** [error instanceof Error ? error.message : 'Unknown error'] *)
Definition thrown_message (error : Thrown) : string :=
  match error with
  | ErrorInstance e => err_message e
  | NonError _ => "Unknown error"
  end.

(** [tracer.trace(name, fn, options = {})].  [await fn(span)] throws what
    [fn] throws and what the promise it returns rejects with. *)
Definition trace {T} (this : addr) (name : string) (fn : addr -> M T)
    (options : SpanOptions) : M T :=
  span <- startSpan this name options ;;
  try_catch_finally
    (result <- fn span ;;
     setStatus span Span.ok None ;;;
     ret result)
    (fun error =>
       setStatus span Span.error (Some (thrown_message error)) ;;;
       throw error)
    (end_ span).

End Tracing.

(** Vocabulary for the statements about the tracer. *)
Module TracingRuns.
Import JS Tracing.

(** A lowercase hexadecimal digit: [0] to [9] (codes 48 to 57) or [a] to
    [f] (codes 97 to 102). *)
Definition is_hex (c : ascii) : bool :=
  let n := N_of_ascii c in
  ((48 <=? n) && (n <=? 57) || (97 <=? n) && (n <=? 102))%N.

Fixpoint all_hex (s : string) : bool :=
  match s with
  | EmptyString => true
  | String c r => is_hex c && all_hex r
  end.

(** [n] lowercase hexadecimal characters. *)
Definition hex_id (n : nat) (s : string) : Prop :=
  String.length s = n /\ all_hex s = true.

(** The draws of [Math.random] lie in [0, 1). *)
Definition unit_draws (w : World) : Prop :=
  forall n, (0 <= random w n)%Q /\ (random w n < 1)%Q.

(** Every sampled span of the heap carries well-formed identifiers and
    every no-op span carries the empty trace identifier: what [startSpan]
    establishes for the objects it creates. *)
Definition ids_well_formed (w : World) : Prop :=
  forall a o, heap w !! a = Some o ->
    match o with
    | SpanImpl f _ _ => hex_id 32 (Span.traceId f) /\ hex_id 16 (Span.spanId f)
    | NoopSpan f => Span.traceId f = EmptyString
    | _ => True
    end.

(** The class of the object at an address, which no method changes. *)
Inductive Class :=
  | CSpanImpl (tracer : addr) (config : TracerConfig)
  | CNoopSpan
  | CEmptyObject
  | CTracer (config : TracerConfig).

Definition class_of (o : Obj) : Class :=
  match o with
  | SpanImpl _ t c => CSpanImpl t c
  | NoopSpan _ => CNoopSpan
  | EmptyObject => CEmptyObject
  | TracerObj c _ => CTracer c
  end.

Definition class_at (w : World) (a : addr) : option Class :=
  class_of <$> heap w !! a.

(** A callback that leaves every existing object in its class. *)
Definition keeps_classes {T} (fn : addr -> M T) : Prop :=
  forall span w a k, class_at w a = Some k ->
    class_at (fn span w).2 a = Some k.

(** What [options.parent?.traceId || ...] inherits: the parent's trace
    identifier when there is a parent and the identifier is not empty. *)
Definition inherited_traceId (w : World) (options : SpanOptions)
    : option string :=
  match opt_parent options with
  | None => None
  | Some p =>
      match heap w !! p with
      | Some (SpanImpl f _ _) => truthy (Some (Span.traceId f))
      | Some (NoopSpan f) => truthy (Some (Span.traceId f))
      | _ => None
      end
  end.

(** The world [startSpan] leaves when the call is sampled. *)
Definition sampled_world (w : World) (this : addr) (config : TracerConfig)
    (spans : list addr) (f : Span.t) (drawn : nat) : World :=
  {| NODE_ENV := NODE_ENV w;
     heap := <[this := TracerObj config (spans ++ [length (heap w)])]>
               (heap w ++ [SpanImpl f this config]);
     random := random w;
     draws := draws w + drawn;
     clock := clock w;
     ticks := S (ticks w);
     observed := observed w |}.

Definition fresh_fields (w : World) (name : string) (options : SpanOptions)
    (traceId spanId : string) : Span.t :=
  {| Span.name := name; Span.traceId := traceId; Span.spanId := spanId;
     Span.startTime := clock w (ticks w); Span.endTime := None;
     Span.attributes := default ∅ (opt_attributes options);
     Span.events := []; Span.status := Span.unset |}.

(** The data fields of the span at an address, sampled or not: what a
    reader of the [Span] interface sees. *)
Definition fields_at (w : World) (a : addr) : option Span.t :=
  match heap w !! a with
  | Some (SpanImpl f _ _) => Some f
  | Some (NoopSpan f) => Some f
  | _ => None
  end.

(** The fields of the sampled span at an address. *)
Definition span_at (w : World) (a : addr) : option Span.t :=
  match heap w !! a with
  | Some (SpanImpl f _ _) => Some f
  | _ => None
  end.

Definition attribute_at (w : World) (a : addr) (key : string)
    : option Span.AttrVal :=
  match span_at w a with
  | Some f => Span.attributes f !! key
  | None => None
  end.

(** The method calls a run made on a span, in order. *)
Definition calls_on (span : addr) (es : list Event) : list Span.Call :=
  flat_map (fun e => match e with
                     | Called s call => if Nat.eqb s span then [call] else []
                     | _ => []
                     end) es.

(** How often the completion callback ran for a span. *)
Definition is_completion (span : addr) (e : Event) : bool :=
  match e with
  | Completed _ s => Nat.eqb s span
  | _ => false
  end.

Definition completions (span : addr) (es : list Event) : nat :=
  length (List.filter (is_completion span) es).

Fixpoint end_times (n : nat) (span : addr) : M unit :=
  match n with
  | O => ret tt
  | S k => Tracing.end_ span ;;; end_times k span
  end.

Definition world0 (env : option string) (r : nat -> Q) (c : nat -> Z) : World :=
  {| NODE_ENV := env; heap := []; random := r; draws := 0; clock := c;
     ticks := 0; observed := [] |}.

(** The world after a run of [startSpan] calls on one tracer. *)
Definition start_all (this : addr) (calls : list (string * SpanOptions))
    (w : World) : World :=
  fold_left (fun w c => (startSpan this c.1 c.2 w).2) calls w.

Definition demo_config (rate : option Q) : TracerConfig :=
  {| tr_service := "svc"; tr_endpoint := None; sampleRate := rate |}.

(** A world in which every draw of [Math.random] is 1/2 and the clock
    counts milliseconds from 1000. *)
Definition demo_world : World :=
  world0 None (fun _ => (1 # 2)%Q) (fun n => 1000 + Z.of_nat n).

(** A world whose draws of [Math.random] run through 0/16, 1/16, ...,
    15/16 again and again, so that identifiers differ. *)
Definition cycling_world : World :=
  world0 None (fun n => (Z.of_nat (n mod 16) # 16)%Q)
    (fun n => 1000 + Z.of_nat n).

(** [new Tracer({service})], then [startSpan("work")]. *)
Definition demo_span : M addr :=
  t <- new_Tracer (demo_config None) ;;
  startSpan t "work" no_options.

(** The fields of the span [demo_span] creates in [demo_world]: every
    identifier character is [chars[8]]. *)
Definition demo_fields : Span.t :=
  {| Span.name := "work";
     Span.traceId := "88888888888888888888888888888888";
     Span.spanId := "8888888888888888";
     Span.startTime := 1000; Span.endTime := None;
     Span.attributes := ∅; Span.events := [];
     Span.status := Span.unset |}.

(** A callback that tags the span and fails with [Error("x")]. *)
Definition failing_fn (span : addr) : M Z :=
  Tracing.setAttribute span "step" (Span.ANum 1) ;;;
  throw (ErrorInstance {| err_name := "Error"; err_message := "x";
                          err_stack := None |}).

(** A callback that rejects with a string, not an [Error]. *)
Definition rejecting_fn (span : addr) : M Z :=
  throw (NonError (JStr "boom")).

Definition child_of (parent : addr) : SpanOptions :=
  {| opt_attributes := None; opt_parent := Some parent |}.

(** A span of a tracer of rate 1 started under a span that a tracer of
    rate 1/4 did not sample. *)
Definition child_of_unsampled : M addr :=
  a <- new_Tracer (demo_config (Some (1 # 4)%Q)) ;;
  parent <- startSpan a "parent" no_options ;;
  b <- new_Tracer (demo_config (Some 1%Q)) ;;
  startSpan b "child" (child_of parent).

End TracingRuns.

(** ** JSON and dates *)

Module JSON.
Import JS.

Definition backslash : string := String "092"%char EmptyString.

Definition hex_digit (n : N) : string :=
  match String.get (N.to_nat n) "0123456789abcdef" with
  | Some c => String c EmptyString
  | None => EmptyString
  end.

(** One character of a quoted string: the quote, the backslash and the
    control characters are escaped. *)
Definition escape (a : ascii) : string :=
  let n := N_of_ascii a in
  if (n =? 34)%N then backslash +:+ dquote
  else if (n =? 92)%N then backslash +:+ backslash
  else if (n =? 8)%N then backslash +:+ "b"
  else if (n =? 12)%N then backslash +:+ "f"
  else if (n =? 10)%N then backslash +:+ "n"
  else if (n =? 13)%N then backslash +:+ "r"
  else if (n =? 9)%N then backslash +:+ "t"
  else if (n <? 32)%N
       then backslash +:+ "u00" +:+ hex_digit (n / 16) +:+ hex_digit (n mod 16)
  else String a EmptyString.

Fixpoint escape_all (s : string) : string :=
  match s with
  | EmptyString => EmptyString
  | String a r => escape a +:+ escape_all r
  end.

Definition QuoteJSONString (s : string) : string :=
  dquote +:+ escape_all s +:+ dquote.

(** The serialization of a value either throws or yields a text, or
    [None] for a value that has none ([undefined]). *)
Definition Serialized := (Thrown + option string)%type.

(** The elements of an array, in order; [undefined] is written [null]. *)
Fixpoint array_parts (parts : list Serialized) : Thrown + list string :=
  match parts with
  | [] => inr []
  | inl e :: _ => inl e
  | inr o :: r =>
      match array_parts r with
      | inl e => inl e
      | inr l => inr (default "null" o :: l)
      end
  end.

(** The properties of an object, in enumeration order; a property without
    serialization is left out. *)
Fixpoint object_parts (entries : list (string * Serialized))
    : Thrown + list string :=
  match entries with
  | [] => inr []
  | (_, inl e) :: _ => inl e
  | (_, inr None) :: r => object_parts r
  | (k, inr (Some s)) :: r =>
      match object_parts r with
      | inl e => inl e
      | inr l => inr ((QuoteJSONString k +:+ ":" +:+ s) :: l)
      end
  end.

Fixpoint SerializeJSONProperty (v : JsVal) : Serialized :=
  match v with
  | JUndefined => inr None
  | JNull => inr (Some "null")
  | JBool b => inr (Some (if b then "true" else "false"))
  | JNum n => inr (Some (Number_toString n))
  | JStr s => inr (Some (QuoteJSONString s))
  | JBigInt _ => inl (TypeError "Do not know how to serialize a BigInt")
  | JArr xs =>
      match array_parts (map SerializeJSONProperty xs) with
      | inl e => inl e
      | inr l => inr (Some ("[" +:+ join "," l +:+ "]"))
      end
  | JObj props =>
      match object_parts
              (own_entries
                 (map (fun kv => let '(k, x) := kv in
                                 (k, SerializeJSONProperty x)) props)) with
      | inl e => inl e
      | inr l => inr (Some ("{" +:+ join "," l +:+ "}"))
      end
  end.

(** [JSON.stringify(value)] *)
Definition stringify (v : JsVal) : Serialized := SerializeJSONProperty v.

End JSON.

Module Date.
Import JS.

Fixpoint zeros (n : nat) : string :=
  match n with
  | O => EmptyString
  | S k => "0" +:+ zeros k
  end.

Definition pad (width : nat) (n : Z) : string :=
  let s := Number_toString n in
  zeros (width - String.length s) +:+ s.

(** The civil date of a day count from 1970-01-01 (proleptic Gregorian
    calendar, as ECMAScript has it). *)
Definition civil (days : Z) : Z * Z * Z :=
  let z := days + 719468 in
  let era := z / 146097 in
  let doe := z - era * 146097 in
  let yoe := (doe - doe / 1460 + doe / 36524 - doe / 146096) / 365 in
  let doy := doe - (365 * yoe + yoe / 4 - yoe / 100) in
  let mp := (5 * doy + 2) / 153 in
  let d := doy - (153 * mp + 2) / 5 + 1 in
  let m := if mp <? 10 then mp + 3 else mp - 9 in
  let y := yoe + era * 400 + (if m <=? 2 then 1 else 0) in
  (y, m, d).

(** [date.toISOString()] of the instant [ms] milliseconds after the
    epoch. *)
Definition toISOString (ms : Z) : string :=
  let days := ms / 86400000 in
  let rest := ms mod 86400000 in
  let '(y, m, d) := civil days in
  let year :=
    if (0 <=? y) && (y <=? 9999) then pad 4 y
    else (if y <? 0 then "-" else "+") +:+ pad 6 (Z.abs y) in
  year +:+ "-" +:+ pad 2 m +:+ "-" +:+ pad 2 d
  +:+ "T" +:+ pad 2 (rest / 3600000)
  +:+ ":" +:+ pad 2 ((rest / 60000) mod 60)
  +:+ ":" +:+ pad 2 ((rest / 1000) mod 60)
  +:+ "." +:+ pad 3 (rest mod 1000) +:+ "Z".

End Date.

(** ** Logger *)

Module Destination.
Inductive t := console | json | custom.
End Destination.

Module Logging.
Import JS.

(** [LoggerConfig] as the caller writes it. *)
Record LoggerOptions := {
  opt_service : string;
  opt_level : option Level.t;
  opt_pretty : option bool;
  opt_destination : option Destination.t;
  opt_customHandler : option (Log.Entry -> M unit);
}.

(** [Required<LoggerConfig>] *)
Record LoggerConfig := {
  service : string;
  level : Level.t;
  pretty : bool;
  destination : Destination.t;
  customHandler : Log.Entry -> M unit;
}.

Record Logger := {
  config : LoggerConfig;
  currentTraceId : option string;
  currentSpanId : option string;
}.

Definition LOG_LEVELS (l : Level.t) : Z :=
  match l with
  | Level.debug => 0
  | Level.info => 1
  | Level.warn => 2
  | Level.error => 3
  | Level.fatal => 4
  end.

(** The constructor: defaults, overridden by what the caller gave. *)
Definition new (NODE_ENV : option string) (options : LoggerOptions) : Logger :=
  let isDev := Core.isDev NODE_ENV in
  {| config :=
       {| service := opt_service options;
          level := default (if isDev then Level.debug else Level.info)
                     (opt_level options);
          pretty := default isDev (opt_pretty options);
          destination := default Destination.console (opt_destination options);
          customHandler := default (fun _ => ret tt) (opt_customHandler options) |};
     currentTraceId := None;
     currentSpanId := None |}.

Definition setTraceContext (this : Logger) (traceId spanId : string) : Logger :=
  {| config := config this;
     currentTraceId := Some traceId;
     currentSpanId := Some spanId |}.

Definition clearTraceContext (this : Logger) : Logger :=
  {| config := config this; currentTraceId := None; currentSpanId := None |}.

Definition shouldLog (this : Logger) (l : Level.t) : bool :=
  LOG_LEVELS (level (config this)) <=? LOG_LEVELS l.

Definition level_name (l : Level.t) : string :=
  match l with
  | Level.debug => "debug"
  | Level.info => "info"
  | Level.warn => "warn"
  | Level.error => "error"
  | Level.fatal => "fatal"
  end.

Definition escape_char : string := String "027"%char EmptyString.

Definition levelColors (l : Level.t) : string :=
  match l with
  | Level.debug => escape_char +:+ "[36m"
  | Level.info => escape_char +:+ "[32m"
  | Level.warn => escape_char +:+ "[33m"
  | Level.error => escape_char +:+ "[31m"
  | Level.fatal => escape_char +:+ "[35m"
  end.

(** [s.toUpperCase()] on the letters a to z. *)
Fixpoint toUpperCase (s : string) : string :=
  match s with
  | EmptyString => EmptyString
  | String a r =>
      let n := N_of_ascii a in
      String (if ((97 <=? n) && (n <=? 122))%N
              then ascii_of_N (n - 32) else a)
             (toUpperCase r)
  end.

Definition opt_str (s : option string) : JsVal :=
  match s with
  | Some x => JStr x
  | None => JUndefined
  end.

(** The object literal the JSON format serializes. *)
Definition json_record (entry : Log.Entry) : list (string * JsVal) :=
  obj_literal
    ([ ("timestamp", JStr (Date.toISOString (Log.timestamp entry)));
       ("level", JStr (level_name (Log.level entry)));
       ("service", JStr (Log.service entry));
       ("message", JStr (Log.message entry)) ]
     ++ match Log.context entry with
        | Some c => own_entries c
        | None => []
        end
     ++ [ ("traceId", opt_str (Log.traceId entry));
          ("spanId", opt_str (Log.spanId entry));
          ("error",
           match Log.error entry with
           | Some e =>
               JObj (obj_literal
                       [ ("name", JStr (err_name e));
                         ("message", JStr (err_message e));
                         ("stack", opt_str (err_stack e)) ])
           | None => JUndefined
           end) ]).

(** A text interpolated into a template: [undefined] is spelled out. *)
Definition interpolate (s : JSON.Serialized) : Thrown + string :=
  match s with
  | inl e => inl e
  | inr o => inr (default "undefined" o)
  end.

Definition formatEntry (this : Logger) (entry : Log.Entry) : Thrown + string :=
  if pretty (config this) then
    let reset := escape_char +:+ "[0m" in
    let color := levelColors (Log.level entry) in
    let output :=
      color +:+ "[" +:+ toUpperCase (level_name (Log.level entry)) +:+ "]"
      +:+ reset +:+ " " +:+ Log.message entry in
    let with_context :=
      match Log.context entry with
      | Some c =>
          if (0 <? length (own_entries c))%nat
          then match interpolate (JSON.stringify (JObj c)) with
               | inl e => inl e
               | inr s => inr (output +:+ " " +:+ s)
               end
          else inr output
      | None => inr output
      end in
    match with_context with
    | inl e => inl e
    | inr output =>
        match Tracing.truthy (Log.traceId entry) with
        | Some id => inr (output +:+ " (trace=" +:+ slice_to 8 id +:+ ")")
        | None => inr output
        end
    end
  else interpolate (JSON.stringify (JObj (json_record entry))).

Definition lift {A} (r : Thrown + A) : M A :=
  match r with
  | inl e => throw e
  | inr a => ret a
  end.

Definition log (this : Logger) (l : Level.t) (message : string)
    (context : option (list (string * JsVal))) (error : option ErrorObj)
    : M unit :=
  if negb (shouldLog this l) then ret tt
  else
    now <- Date_now ;;
    let entry :=
      {| Log.level := l; Log.message := message; Log.timestamp := now;
         Log.service := service (config this); Log.context := context;
         Log.error := error; Log.traceId := currentTraceId this;
         Log.spanId := currentSpanId this |} in
    formatted <- lift (formatEntry this entry) ;;
    match destination (config this) with
    | Destination.console =>
        match l with
        | Level.error | Level.fatal => console console_error formatted
        | Level.warn => console console_warn formatted
        | _ => console console_log formatted
        end
    | Destination.json => console console_log formatted
    | Destination.custom =>
        observe (Handled entry) ;;;
        customHandler (config this) entry
    end.

Definition debug (this : Logger) (message : string)
    (context : option (list (string * JsVal))) : M unit :=
  log this Level.debug message context None.

Definition info (this : Logger) (message : string)
    (context : option (list (string * JsVal))) : M unit :=
  log this Level.info message context None.

Definition warn (this : Logger) (message : string)
    (context : option (list (string * JsVal))) : M unit :=
  log this Level.warn message context None.

Definition error (this : Logger) (message : string) (error : option ErrorObj)
    (context : option (list (string * JsVal))) : M unit :=
  log this Level.error message context error.

Definition fatal (this : Logger) (message : string) (error : option ErrorObj)
    (context : option (list (string * JsVal))) : M unit :=
  log this Level.fatal message context error.

(** [child(context)]: a new logger on the same configuration that inherits
    the trace context; the given context is not used. *)
Definition child (this : Logger) (context : list (string * JsVal)) : Logger :=
  {| config := config this;
     currentTraceId := currentTraceId this;
     currentSpanId := currentSpanId this |}.

End Logging.

(** Vocabulary for the statements about the logger. *)
Module LoggingRuns.
Import JS Logging.

(** A call of the public method for a level.  [debug], [info] and [warn]
    take no error argument. *)
Definition call (this : Logger) (l : Level.t) (message : string)
    (context : option (list (string * JsVal))) (err : option ErrorObj)
    : M unit :=
  match l with
  | Level.debug => debug this message context
  | Level.info => info this message context
  | Level.warn => warn this message context
  | Level.error => error this message err context
  | Level.fatal => fatal this message err context
  end.

Definition error_of (l : Level.t) (err : option ErrorObj) : option ErrorObj :=
  match l with
  | Level.error | Level.fatal => err
  | _ => None
  end.

(** The entry such a call stands for, stamped with the current time. *)
Definition entry_of (this : Logger) (l : Level.t) (message : string)
    (context : option (list (string * JsVal))) (err : option ErrorObj)
    (w : World) : Log.Entry :=
  {| Log.level := l; Log.message := message;
     Log.timestamp := clock w (ticks w);
     Log.service := service (config this); Log.context := context;
     Log.error := error_of l err; Log.traceId := currentTraceId this;
     Log.spanId := currentSpanId this |}.

(** The console method the [console] destination uses for a level. *)
Definition console_method (l : Level.t) : ConsoleMethod :=
  match l with
  | Level.error | Level.fatal => console_error
  | Level.warn => console_warn
  | _ => console_log
  end.

(** The world once [new Date()] has read the clock. *)
Definition stamped (w : World) : World := with_ticks w (S (ticks w)).

Definition emit (e : Event) (w : World) : World :=
  with_observed w (observed w ++ [e]).

Definition json_logger : Logger :=
  new (Some "production")
    {| opt_service := "api"; opt_level := Some Level.warn;
       opt_pretty := None; opt_destination := Some Destination.json;
       opt_customHandler := None |}.

(** A logger with the custom destination and the given handler. *)
Definition custom_logger (handler : Log.Entry -> M unit) : Logger :=
  new (Some "production")
    {| opt_service := "api"; opt_level := None; opt_pretty := None;
       opt_destination := Some Destination.custom;
       opt_customHandler := Some handler |}.

Definition bigint_context : list (string * JsVal) :=
  obj_literal [("userId", JStr "u1"); ("count", JBigInt 1)].

Definition plain_context : list (string * JsVal) :=
  obj_literal [("userId", JStr "u1"); ("count", JNum 3)].

Definition shadowing_context : list (string * JsVal) :=
  obj_literal [("message", JStr "other")].

Definition log_world : World :=
  TracingRuns.world0 (Some "production") (fun _ => 0%Q)
    (fun _ => 1700000000000).

(** The line [json_logger] prints for [error("boom", undefined, context)]
    on [plain_context] in [log_world]. *)
Definition demo_line : string :=
  Eval vm_compute in
    match formatEntry json_logger
            (entry_of json_logger Level.error "boom" (Some plain_context)
               None log_world) with
    | inr s => s
    | inl _ => EmptyString
    end.

End LoggingRuns.

(** ** Runs of registry operations *)

Module MetricsOps.
Import JS Metrics MetricsRuns.

(** One call on an instrument of the registry. *)
Inductive Op :=
  | CounterInc (name : string) (value : option Z) (labels : option Labels)
  | GaugeSet (name : string) (value : Z) (labels : option Labels)
  | GaugeInc (name : string) (value : option Z) (labels : option Labels)
  | GaugeDec (name : string) (value : option Z) (labels : option Labels)
  | Observe (name : string) (value : Z) (labels : option Labels).

Definition apply (m : t) (op : Op) : t :=
  match op with
  | CounterInc name value labels => counter_inc name value labels m
  | GaugeSet name value labels => gauge_set name value labels m
  | GaugeInc name value labels => gauge_inc name value labels m
  | GaugeDec name value labels => gauge_dec name value labels m
  | Observe name value labels => histogram_observe name value labels m
  end.

Definition run (ops : list Op) (m : t) : t := fold_left apply ops m.

(** The increments of a run that fall under one series key. *)
Definition under (m : t) (key : string) (calls : list increment)
    : list increment :=
  List.filter (fun c => String.eqb (getKey m c.1.1 c.2) key) calls.

(** What they add up to. *)
Definition total (m : t) (key : string) (calls : list increment) : Z :=
  fold_right Z.add 0 (map added (under m key calls)).

(** The three lists of series keys, in the order [toPrometheus] walks. *)
Definition counter_keys (m : t) : list string := map fst (counters m).
Definition gauge_keys (m : t) : list string := map fst (gauges m).
Definition histogram_keys (m : t) : list string := map fst (histograms m).

(** The two variable parts of a series key, as [getKey] computes them. *)
Definition key_prefix (m : t) : string :=
  match prefix (config m) with
  | Some p => if String.eqb p EmptyString then EmptyString else p +:+ "_"
  | None => EmptyString
  end.

Definition labelStr (labels : option Labels) : string :=
  match labels with
  | Some l => join "," (map label_pair (own_entries l))
  | None => EmptyString
  end.

(** The [+Inf] bucket line [toPrometheus] prints for a histogram series. *)
Definition bucket_line (key : string) (count : nat) : string :=
  replace_first "}"%char (",le=" +:+ dquote +:+ "+Inf" +:+ dquote +:+ "}") key
  +:+ " " +:+ Number_toString (Z.of_nat count).

Definition prefixed : MetricsConfig :=
  {| service := "svc"; endpoint := None; prefix := Some "app" |}.

End MetricsOps.

(** ** Runs of calls on a span *)

Module TracingOps.
Import JS Tracing TracingRuns.

(** A method call on a span, its return value dropped. *)
Definition invoke (span : addr) (call : Span.Call) : M unit :=
  match call with
  | Span.setAttribute key value => setAttribute span key value ;;; ret tt
  | Span.addEvent name attributes => addEvent span name attributes ;;; ret tt
  | Span.setStatus status message => setStatus span status message ;;; ret tt
  | Span.end_ => end_ span
  end.

Fixpoint invoke_all (span : addr) (calls : list Span.Call) : M unit :=
  match calls with
  | [] => ret tt
  | call :: rest => invoke span call ;;; invoke_all span rest
  end.

(** [span.addEvent(name)] for each name in turn. *)
Fixpoint add_events (span : addr) (names : list string) : M unit :=
  match names with
  | [] => ret tt
  | name :: rest => addEvent span name None ;;; add_events span rest
  end.

(** The events such a run records when the clock is first read at
    [tick]. *)
Fixpoint events_from (clock : nat -> Z) (tick : nat) (names : list string)
    : list Span.SpanEvent :=
  match names with
  | [] => []
  | name :: rest =>
      {| Span.ev_name := name; Span.ev_timestamp := clock tick;
         Span.ev_attributes := None |} :: events_from clock (S tick) rest
  end.

(** The line [onSpanEnd] prints in development. *)
Definition trace_line (f : Span.t) (finish : Z) : string :=
  "[TRACE] " +:+ Span.name f +:+ " ("
  +:+ Number_toString (finish - Span.startTime f)
  +:+ "ms) trace=" +:+ slice_to 8 (Span.traceId f).

(** The span list of the tracer at an address. *)
Definition spans_of (w : World) (tracer : addr) : option (list addr) :=
  match heap w !! tracer with
  | Some (TracerObj _ spans) => Some spans
  | _ => None
  end.

(** [new Tracer({service, sampleRate: 0.25})], then [startSpan("work")]:
    in [demo_world] the draw is 1/2 and the call is not sampled. *)
Definition unsampled_span : M addr :=
  t <- new_Tracer (demo_config (Some (1 # 4)%Q)) ;;
  startSpan t "work" no_options.

(** A world in which the draws of [Math.random] are 1/2 and the process
    runs in development. *)
Definition dev_world : World :=
  world0 (Some "development") (fun _ => (1 # 2)%Q)
    (fun n => 1000 + Z.of_nat n).

End TracingOps.

(** Vocabulary for more statements about the logger. *)
Module LoggingOps.
Import JS Logging LoggingRuns.

(** No BigInt at any depth of the value: with that, a value of [JsVal]
    is plain data, which [JSON.stringify] serializes without throwing. *)
Fixpoint bigint_free (v : JsVal) : bool :=
  match v with
  | JBigInt _ => false
  | JArr xs => forallb bigint_free xs
  | JObj props =>
      forallb (fun kv => let '(_, x) := kv in bigint_free x) props
  | _ => true
  end.

(** A context ([undefined] or an object) without BigInt. *)
Definition context_bigint_free (context : option (list (string * JsVal)))
    : bool :=
  match context with
  | Some c => bigint_free (JObj c)
  | None => true
  end.

(** No character below U+0020: no line break, tab or other control
    character. *)
Fixpoint no_control_chars (s : string) : bool :=
  match s with
  | EmptyString => true
  | String a r => (32 <=? N_of_ascii a)%N && no_control_chars r
  end.

(** The console method [log] uses on the destinations that print. *)
Definition printing_method (d : Destination.t) (l : Level.t) : ConsoleMethod :=
  match d with
  | Destination.console => console_method l
  | _ => console_log
  end.

(** A logger that prints JSON lines, and one that prints the pretty
    format. *)
Definition pretty_logger : Logger :=
  new (Some "development")
    {| opt_service := "api"; opt_level := None; opt_pretty := None;
       opt_destination := None; opt_customHandler := None |}.

Definition two_lines : string := "line one" +:+ newline +:+ "line two".

Definition traced_context : list (string * JsVal) :=
  obj_literal [("traceId", JStr "forged"); ("level", JStr "debug")].

(** The [error] field of the JSON record. *)
Definition error_value (e : option ErrorObj) : JsVal :=
  match e with
  | Some e =>
      JObj (obj_literal
              [ ("name", JStr (err_name e));
                ("message", JStr (err_message e));
                ("stack", opt_str (err_stack e)) ])
  | None => JUndefined
  end.

(** The entry of [json_logger.error(two_lines, undefined, plain_context)]
    and the line printed for it. *)
Definition two_lines_entry : Log.Entry :=
  entry_of json_logger Level.error two_lines (Some plain_context) None
    log_world.

Definition two_lines_printed : string :=
  Eval vm_compute in
    match formatEntry json_logger two_lines_entry with
    | inr s => s
    | inl _ => EmptyString
    end.

End LoggingOps.
(** ** Facts about the built-ins *)

Module JSFacts.
Import JS.

Section Assoc.
Context {V : Type}.
Implicit Types (m : list (string * V)) (k : string) (v : V).

Lemma Map_get_set_eq k v m : Map_get k (Map_set k v m) = Some v.
Proof.
  induction m as [|[k' v'] m IH]; simpl.
  - by rewrite String.eqb_refl.
  - destruct (String.eqb k' k) eqn:E; simpl; by rewrite E.
Qed.

Lemma Map_get_set_ne k k' v m :
  k <> k' -> Map_get k' (Map_set k v m) = Map_get k' m.
Proof.
  intros Hne. induction m as [|[k0 v0] m IH]; simpl.
  - destruct (String.eqb_spec k k'); congruence.
  - destruct (String.eqb_spec k0 k) as [->|]; simpl.
    + destruct (String.eqb_spec k k'); congruence.
    + by rewrite IH.
Qed.


Lemma Map_get_Some_split k v m :
  Map_get k m = Some v -> exists pre post, m = pre ++ (k, v) :: post.
Proof.
  induction m as [|[k0 v0] m IH]; simpl; [done|].
  destruct (String.eqb_spec k0 k) as [->|].
  - intros [= ->]. by exists [], m.
  - intros H. destruct (IH H) as (pre & post & ->).
    by exists ((k0, v0) :: pre), post.
Qed.

End Assoc.

Lemma or_zero_default (x : option Z) : or_zero x = default 0 x.
Proof. destruct x as [v|]; simpl; [|done]. destruct (Z.eqb_spec v 0); congruence. Qed.

Lemma app_String a s r : String a s +:+ r = String a (s +:+ r).
Proof. reflexivity. Qed.

Lemma app_Empty r : EmptyString +:+ r = r.
Proof. reflexivity. Qed.

Lemma app_assoc_s (s r t : string) : (s +:+ r) +:+ t = s +:+ (r +:+ t).
Proof.
  induction s as [|a s IH]; [done|]. by rewrite !app_String, IH.
Qed.

Lemma app_length_s (s r : string) :
  String.length (s +:+ r) = (String.length s + String.length r)%nat.
Proof.
  induction s as [|a s IH]; [done|]. rewrite app_String. simpl. by rewrite IH.
Qed.

Lemma split_head_slice_from c s n :
  indexOf c s = Some n -> split_head c s +:+ slice_from n s = s.
Proof.
  revert n. induction s as [|a s IH]; intros n; simpl; [done|].
  destruct (Ascii.eqb a c).
  - by intros [= <-].
  - destruct (indexOf c s) as [i|]; simpl; [|done].
    intros [= <-]. rewrite app_String. simpl. by rewrite IH.
Qed.

Lemma indexOf_app_r c s r :
  is_Some (indexOf c r) -> is_Some (indexOf c (s +:+ r)).
Proof.
  intros Hr. induction s as [|a s IH]; [done|].
  rewrite app_String. simpl.
  destruct (Ascii.eqb a c); [by eexists|].
  destruct IH as [i ->]. by eexists.
Qed.


End JSFacts.


(** ** The metrics registry *)

Module MetricsFacts.
Import JS Metrics MetricsRuns MetricsOps JSFacts.

Lemma getKey_config m m' name labels :
  config m = config m' -> getKey m name labels = getKey m' name labels.
Proof. unfold getKey. by intros ->. Qed.





Lemma getKey_has_brace m name labels :
  is_Some (indexOf "{"%char (getKey m name labels)).
Proof.
  unfold getKey. do 2 apply indexOf_app_r. by eexists.
Qed.

(** The name and the label portion [toPrometheus] cuts out of a series key
    are the two halves of that key. *)
Lemma series_name_label_portion m name labels :
  let key := getKey m name labels in
  series_name key +:+ label_portion key = key.
Proof.
  intros key. unfold series_name, label_portion, includes.
  destruct (getKey_has_brace m name labels) as [i Hi]. fold key in Hi.
  rewrite Hi. simpl. by apply split_head_slice_from.
Qed.

Lemma includes_false c s : includes c s = false -> indexOf c s = None.
Proof. unfold includes. by destruct (indexOf c s). Qed.


Lemma split_head_app c s r :
  includes c s = false -> split_head c (s +:+ String c r) = s.
Proof.
  unfold includes. induction s as [|a s IH].
  - intros _. change (split_head c (String c r) = EmptyString).
    simpl. by rewrite Ascii.eqb_refl.
  - rewrite app_String. simpl. destruct (Ascii.eqb a c); [done|].
    intros H. rewrite IH; [done|]. by destruct (indexOf c s).
Qed.


Lemma getKey_parts m name labels :
  getKey m name labels
  = (key_prefix m +:+ name) +:+ String "{"%char (labelStr labels +:+ "}").
Proof. unfold getKey, key_prefix, labelStr. by rewrite app_assoc_s. Qed.

Lemma series_name_getKey m name labels :
  includes "{"%char (key_prefix m +:+ name) = false ->
  series_name (getKey m name labels) = key_prefix m +:+ name /\
  label_portion (getKey m name labels) = "{" +:+ labelStr labels +:+ "}".
Proof.
  intros H.
  assert (Hn : series_name (getKey m name labels) = key_prefix m +:+ name).
  { unfold series_name. rewrite getKey_parts. by apply split_head_app. }
  split; [exact Hn|].
  pose proof (series_name_label_portion m name labels) as Hs. simpl in Hs.
  rewrite Hn in Hs. rewrite getKey_parts in Hs at 2.
  by apply String.app_inj in Hs.
Qed.




Lemma sum_le_magnitude (l : list Z) :
  Z.abs (fold_right Z.add 0 l) <= magnitude l.
Proof. induction l as [|x l IH]; unfold magnitude in *; simpl; lia. Qed.




(** The specification's example, [observe(10)] then [observe(20)], in full. *)
Example histogram_10_20 :
  toPrometheus (observe_all [("h", 10, None); ("h", 20, None)] (new cfg0))
  = join newline
      [ "# TYPE h histogram";
        "h{,le=" +:+ dquote +:+ "+Inf" +:+ dquote +:+ "} 2";
        "h_sum{} 30";
        "h_count{} 2" ].
Proof. reflexivity. Qed.

Lemma counter_inc_get name value labels m :
  Map_get (getKey m name labels) (counters (counter_inc name value labels m))
  = Some (default 0 (Map_get (getKey m name labels) (counters m)) + default 1 value).
Proof.
  unfold counter_inc. simpl. by rewrite Map_get_set_eq, or_zero_default.
Qed.

Lemma counter_inc_get_ne name value labels m k :
  k <> getKey m name labels ->
  Map_get k (counters (counter_inc name value labels m)) = Map_get k (counters m).
Proof.
  intros Hne. unfold counter_inc. simpl. by rewrite Map_get_set_ne.
Qed.









(** That run, computed: 5, then the default 1, then 3. *)
Example counter_5_1_3 :
  counters (inc_all [("c", Some 5, None); ("c", None, None);
                     ("c", Some 3, None)] (new cfg0))
  = [("c{}", 9)].
Proof. reflexivity. Qed.


End MetricsFacts.

(** ** The tracer *)

Module TracingFacts.
Import JS Tracing TracingRuns.

#[local] Arguments slice_to : simpl never.
#[local] Arguments generateId : simpl never.

Lemma bind_Return {A B} (c : M A) (k : A -> M B) w a w' :
  c w = (Return a, w') -> bind c k w = k a w'.
Proof. unfold bind. by intros ->. Qed.

Lemma bind_Throw {A B} (c : M A) (k : A -> M B) w e w' :
  c w = (Throw e, w') -> bind c k w = (Throw e, w').
Proof. unfold bind. by intros ->. Qed.

Lemma completions_app span es es' :
  completions span (es ++ es') = (completions span es + completions span es')%nat.
Proof. unfold completions. by rewrite List.filter_app, length_app. Qed.

(** *** Span mutators *)

Lemma setStatus_SpanImpl span status message w f t c :
  heap w !! span = Some (SpanImpl f t c) ->
  setStatus span status message w
  = (Return span,
     with_heap
       (with_observed w
          (observed w ++ [Called span (Span.setStatus status message)]))
       (<[span :=
            SpanImpl
              (match truthy message with
               | Some s =>
                   Span.with_attributes (Span.with_status f status)
                     (<["status.message" := Span.AStr s]> (Span.attributes f))
               | None => Span.with_status f status
               end) t c]> (heap w))).
Proof.
  intros H. unfold setStatus, bind, observe, read, write, ret. simpl.
  rewrite H. simpl. reflexivity.
Qed.

Lemma setStatus_NoopSpan span status message w f :
  heap w !! span = Some (NoopSpan f) ->
  setStatus span status message w
  = (Return (length (heap w)),
     with_heap
       (with_observed w
          (observed w ++ [Called span (Span.setStatus status message)]))
       (heap w ++ [EmptyObject])).
Proof.
  intros H. unfold setStatus, bind, observe, read, alloc. simpl.
  rewrite H. reflexivity.
Qed.

Lemma end_SpanImpl span w f t c :
  heap w !! span = Some (SpanImpl f t c) ->
  let now := clock w (ticks w) in
  let f' := Span.with_endTime f (Some now) in
  exists w',
    end_ span w = (Return tt, w') /\
    heap w' = <[span := SpanImpl f' t c]> (heap w) /\
    exists printed,
      observed w' = observed w ++ [Called span Span.end_; Completed t span]
                      ++ printed /\
      completions span printed = 0%nat /\
      (forall a call, ~ In (Called a call) printed).
Proof.
  intros H now f'.
  unfold end_, onSpanEnd, console, observe, read, write, Date_now, ret, bind.
  simpl. rewrite H. simpl.
  destruct (Core.isDev (NODE_ENV w)); simpl.
  - destruct (now =? 0) eqn:E; fold now; rewrite E; simpl;
      (eexists; split; [reflexivity|]; split; [reflexivity|];
       eexists [_]; split; [by rewrite <- !app_assoc|]; split; [done|];
       intros a call [[=]|[]]).
  - eexists; split; [reflexivity|]; split; [reflexivity|].
    exists []. split; [by rewrite <- !app_assoc|]. split; [done|].
    intros a call [].
Qed.

(** C8, as the code has it: on a sampled span [setStatus] returns the span,
    sets the status, records the message under [status.message] exactly when
    a non-empty message is given (whatever the status), and leaves the other
    attributes, the events and [endTime] as they were. *)
Theorem setStatus_frame (w : World) (span : addr) (f : Span.t) (t : addr)
    (c : TracerConfig) (status : Span.Status) (message : option string) :
  heap w !! span = Some (SpanImpl f t c) ->
  let w' := (setStatus span status message w).2 in
  (setStatus span status message w).1 = Return span /\
  exists f',
    heap w' !! span = Some (SpanImpl f' t c) /\
    Span.status f' = status /\
    Span.attributes f' !! "status.message"
      = match truthy message with
        | Some s => Some (Span.AStr s)
        | None => Span.attributes f !! "status.message"
        end /\
    (forall k, k <> "status.message" ->
       Span.attributes f' !! k = Span.attributes f !! k) /\
    Span.events f' = Span.events f /\
    Span.endTime f' = Span.endTime f.
Proof.
  intros H w'. unfold w'. rewrite (setStatus_SpanImpl _ _ _ _ _ _ _ H).
  simpl. split; [done|]. eexists. split.
  { apply list_lookup_insert_eq. by eapply lookup_lt_Some. }
  destruct (truthy message) as [s|]; simpl.
  - split; [done|]. split; [by rewrite lookup_insert_eq|].
    split; [|done]. intros k Hk. by rewrite lookup_insert_ne.
  - done.
Qed.

Lemma setStatus_frame_witness :
  let w := (demo_span demo_world).2 in
  let f := demo_fields in
  let t := 0%nat in
  let c := demo_config (Some 1%Q) in
  heap w !! 1%nat = Some (SpanImpl f t c) /\
  let w' := (setStatus 1%nat Span.error (Some "boom") w).2 in
  (setStatus 1%nat Span.error (Some "boom") w).1 = Return 1%nat /\
  exists f',
    heap w' !! 1%nat = Some (SpanImpl f' t c) /\
    Span.status f' = Span.error /\
    Span.attributes f' !! "status.message"
      = match truthy (Some "boom") with
        | Some s => Some (Span.AStr s)
        | None => Span.attributes f !! "status.message"
        end /\
    (forall k, k <> "status.message" ->
       Span.attributes f' !! k = Span.attributes f !! k) /\
    Span.events f' = Span.events f /\
    Span.endTime f' = Span.endTime f.
Proof.
  split; [reflexivity|].
  apply (setStatus_frame (demo_span demo_world).2 1%nat demo_fields).
  reflexivity.
Defined.

(** C8 fails as stated: [setStatus('ok', 'done')] records the message under
    [status.message] although the status is not [error]. *)
Lemma setStatus_ok_records_message :
  let w := (demo_span demo_world).2 in
  let w' := (setStatus 1%nat Span.ok (Some "done") w).2 in
  (Span.status <$> span_at w 1%nat) = Some Span.unset /\
  attribute_at w 1%nat "status.message" = None /\
  (Span.status <$> span_at w' 1%nat) = Some Span.ok /\
  attribute_at w' 1%nat "status.message" = Some (Span.AStr "done").
Proof. vm_compute. done. Qed.

Lemma end_times_S n span w :
  end_times (S n) span w
  = match end_ span w with
    | (Return _, w') => end_times n span w'
    | (Throw e, w') => (Throw e, w')
    end.
Proof. reflexivity. Qed.

Lemma end_times_snoc n span w :
  (end_times n span w).1 = Return tt ->
  end_times (S n) span w = end_ span (end_times n span w).2.
Proof.
  revert w. induction n as [|n IH]; intros w.
  - intros _. rewrite end_times_S. simpl.
    by destruct (end_ span w) as [[[]|e] w'].
  - rewrite (end_times_S (S n)), (end_times_S n).
    destruct (end_ span w) as [[[]|e] w1]; [|done]. apply IH.
Qed.

(** C10: [end()] on a sampled span is not idempotent.  After any number
    [n] of calls the completion callback has run [n] more times; and one
    more call stamps [endTime] with the current time and runs the callback
    once more. *)
Theorem end_not_idempotent (n : nat) (w : World) (span : addr) (f : Span.t)
    (t : addr) (c : TracerConfig) :
  heap w !! span = Some (SpanImpl f t c) ->
  let wn := (end_times n span w).2 in
  (end_times n span w).1 = Return tt /\
  completions span (observed wn) = (completions span (observed w) + n)%nat /\
  exists fn f',
    heap wn !! span = Some (SpanImpl fn t c) /\
    (end_ span wn).1 = Return tt /\
    heap (end_ span wn).2 !! span = Some (SpanImpl f' t c) /\
    Span.endTime f' = Some (clock wn (ticks wn)) /\
    completions span (observed (end_ span wn).2)
      = S (completions span (observed wn)).
Proof.
  intros H.
  assert (Hstep : forall w0 f0, heap w0 !! span = Some (SpanImpl f0 t c) ->
    exists f', (end_ span w0).1 = Return tt /\
      heap (end_ span w0).2 !! span = Some (SpanImpl f' t c) /\
      Span.endTime f' = Some (clock w0 (ticks w0)) /\
      completions span (observed (end_ span w0).2)
        = S (completions span (observed w0))).
  { intros w0 f0 H0.
    destruct (end_SpanImpl _ _ _ _ _ H0) as (w' & -> & Hh & pr & Ho & Hc & _).
    simpl. eexists. split; [done|]. split.
    { rewrite Hh. apply list_lookup_insert_eq. by eapply lookup_lt_Some. }
    split; [done|].
    rewrite Ho, !completions_app, Hc. unfold completions at 2. simpl.
    rewrite Nat.eqb_refl. simpl. lia. }
  enough (Hn : (end_times n span w).1 = Return tt /\
               completions span (observed (end_times n span w).2)
                 = (completions span (observed w) + n)%nat /\
               exists fn, heap (end_times n span w).2 !! span
                          = Some (SpanImpl fn t c)).
  { destruct Hn as (Hr & Hc & fn & Hfn).
    destruct (Hstep _ _ Hfn) as (f' & ? & ? & ? & ?).
    split; [done|]. split; [done|]. by exists fn, f'. }
  induction n as [|n (Hr & Hc & fn & Hfn)].
  - simpl. split; [done|]. split; [lia|]. by exists f.
  - rewrite end_times_snoc by done.
    destruct (Hstep _ _ Hfn) as (f' & Hr' & Hh' & _ & Hc').
    split; [done|]. split; [rewrite Hc', Hc; lia|]. by exists f'.
Qed.

Lemma end_not_idempotent_witness :
  let w := (demo_span demo_world).2 in
  let f := demo_fields in
  let t := 0%nat in
  let c := demo_config (Some 1%Q) in
  heap w !! 1%nat = Some (SpanImpl f t c) /\
  let wn := (end_times 2 1%nat w).2 in
  (end_times 2 1%nat w).1 = Return tt /\
  completions 1%nat (observed wn) = (completions 1%nat (observed w) + 2)%nat /\
  exists fn f',
    heap wn !! 1%nat = Some (SpanImpl fn t c) /\
    (end_ 1%nat wn).1 = Return tt /\
    heap (end_ 1%nat wn).2 !! 1%nat = Some (SpanImpl f' t c) /\
    Span.endTime f' = Some (clock wn (ticks wn)) /\
    completions 1%nat (observed (end_ 1%nat wn).2)
      = S (completions 1%nat (observed wn)).
Proof.
  split; [reflexivity|].
  apply (end_not_idempotent 2 (demo_span demo_world).2 1%nat demo_fields).
  reflexivity.
Defined.

(** *** Identifiers *)

Lemma all_hex_app s r : all_hex (s +:+ r) = all_hex s && all_hex r.
Proof.
  induction s as [|a s IH]; [done|].
  rewrite JSFacts.app_String. simpl. rewrite IH. by rewrite andb_assoc.
Qed.

Lemma hex_char_at (r : Q) :
  (0 <= r)%Q -> (r < 1)%Q ->
  exists c,
    char_at chars (Qfloor (r * inject_Z (Z.of_nat (String.length chars))))
    = String c EmptyString /\ is_hex c = true.
Proof.
  intros H0 H1. change (Z.of_nat (String.length chars)) with 16.
  set (i := Qfloor (r * inject_Z 16)).
  assert (Hi : 0 <= i < 16).
  { split.
    - change 0 with (Qfloor 0). apply Qfloor_resp_le.
      apply Qmult_le_0_compat; [done|]. by compute.
    - rewrite Zlt_Qlt. eapply Qle_lt_trans; [apply Qfloor_le|].
      clear -H1. destruct r as [p q]. unfold Qlt in *. simpl in *. lia. }
  clearbody i.
  assert (Hc : i = 0 \/ i = 1 \/ i = 2 \/ i = 3 \/ i = 4 \/ i = 5 \/ i = 6
               \/ i = 7 \/ i = 8 \/ i = 9 \/ i = 10 \/ i = 11 \/ i = 12
               \/ i = 13 \/ i = 14 \/ i = 15) by lia.
  repeat (destruct Hc as [->|Hc]; [eexists; split; reflexivity|]).
  subst i. eexists; split; reflexivity.
Qed.

(** [generateId] always returns, consuming one draw per character; when the
    draws lie in [0, 1) every character is a hexadecimal digit. *)
Lemma generateId_loop_spec n : forall result w,
  exists s,
    generateId_loop n result w
    = (Return (result +:+ s), with_draws w (draws w + n)) /\
    (unit_draws w -> String.length s = n /\ all_hex s = true).
Proof.
  induction n as [|n IH]; intros result w.
  - exists EmptyString. split; [|done]. simpl. unfold ret.
    f_equal.
    + f_equal. induction result as [|a r IHr]; [done|].
      by rewrite JSFacts.app_String, <- IHr.
    + destruct w. unfold with_draws. simpl. f_equal. lia.
  - simpl. unfold bind, Math_random.
    set (c := char_at chars _).
    destruct (IH (result +:+ c) (with_draws w (S (draws w))))
      as (s & -> & Hs).
    exists (c +:+ s). split.
    + f_equal; [by rewrite JSFacts.app_assoc_s|].
      unfold with_draws. simpl. f_equal. lia.
    + intros Hw. destruct (Hs Hw) as [Hlen Hhex].
      destruct (Hw (draws w)) as [H0 H1].
      destruct (hex_char_at _ H0 H1) as (a & Ha & Hx).
      assert (Hc : c = String a EmptyString) by exact Ha.
      clearbody c. subst c. rewrite JSFacts.app_String, JSFacts.app_Empty.
      unfold hex_id. simpl.
      rewrite Hlen, Hx, Hhex. done.
Qed.

Lemma generateId_spec n w :
  exists s,
    generateId n w = (Return s, with_draws w (draws w + n)) /\
    (unit_draws w -> hex_id n s).
Proof.
  destruct (generateId_loop_spec n EmptyString w) as (s & Heq & Hs).
  exists s. split; [exact Heq|]. intros Hw. by apply Hs.
Qed.

Lemma Qlt_bool_true x y : (x < y)%Q -> Qlt_bool x y = true.
Proof.
  intros H. unfold Qlt_bool. destruct (Qle_bool y x) eqn:E; [|done].
  apply Qle_bool_iff in E. by apply Qlt_not_le in H.
Qed.

(** *** [startSpan] *)

Lemma parent_traceId_run w options :
  exists i,
    parent_traceId options w = (Return i, w) /\
    truthy i = inherited_traceId w options.
Proof.
  unfold parent_traceId, inherited_traceId, bind, read, ret.
  destruct (opt_parent options) as [p|]; [|by exists None].
  destruct (heap w !! p) as [[]|]; by eexists.
Qed.

(** What a call of [startSpan] on a tracer does, by the sampling draw. *)
Lemma startSpan_run w this config spans name options :
  heap w !! this = Some (TracerObj config spans) ->
  if Qlt_bool (random w (draws w)) (sampleRate_or_one config) then
    exists traceId spanId drawn,
      startSpan this name options w
      = (Return (length (heap w)),
         sampled_world w this config spans
           (fresh_fields w name options traceId spanId) drawn) /\
      match inherited_traceId w options with
      | Some id => traceId = id
      | None => unit_draws w -> hex_id 32 traceId
      end /\
      (unit_draws w -> hex_id 16 spanId)
  else
    startSpan this name options w
    = (Return (length (heap w)),
       with_heap (with_draws w (S (draws w)))
         (heap w ++ [NoopSpan (noop_fields name)])).
Proof.
  intros H. destruct (Qlt_bool _ _) eqn:Es.
  2:{ unfold startSpan, shouldSample, bind, read, Math_random, ret.
      rewrite H, Es. reflexivity. }
  set (w1 := with_draws w (S (draws w))).
  destruct (parent_traceId_run w1 options) as (i & Hp & Hi).
  change (inherited_traceId w1 options) with (inherited_traceId w options) in Hi.
  assert (Hgen : exists traceId d,
    match truthy i with
    | Some id => ret id
    | None => generateId 32
    end w1 = (Return traceId, with_draws w (draws w + d)) /\
    match inherited_traceId w options with
    | Some id => traceId = id
    | None => unit_draws w -> hex_id 32 traceId
    end).
  { rewrite Hi. destruct (inherited_traceId w options) as [id|].
    - exists id, 1%nat. split; [|done].
      unfold ret, w1. do 2 f_equal. lia.
    - destruct (generateId_spec 32 w1) as (s & Hs & Hx).
      exists s, 33%nat. split; [|done]. rewrite Hs. f_equal.
      unfold w1, with_draws. simpl. f_equal. lia. }
  destruct Hgen as (traceId & d & Ht & Htid).
  destruct (generateId_spec 16 (with_draws w (draws w + d)))
    as (sid & Hs & Hsid).
  exists traceId, sid, (d + 16)%nat. split; [|done].
  unfold startSpan, shouldSample, bind, read, Math_random, ret.
  unfold ret in Ht.
  rewrite H, Es. cbv beta iota zeta delta [negb]. fold w1.
  rewrite Hp, Ht, Hs.
  unfold Date_now, alloc, write, ret. simpl.
  unfold sampled_world, fresh_fields, with_heap. simpl.
  do 2 f_equal. lia.
Qed.

Lemma sampled_world_lookup_span w this config spans f drawn :
  heap w !! this = Some (TracerObj config spans) ->
  heap (sampled_world w this config spans f drawn) !! length (heap w)
  = Some (SpanImpl f this config).
Proof.
  intros H. apply lookup_lt_Some in H. simpl.
  rewrite list_lookup_insert_ne by lia.
  by rewrite lookup_app_r, Nat.sub_diag by lia.
Qed.

Lemma sampled_world_lookup_old w this config spans f drawn a o :
  heap w !! this = Some (TracerObj config spans) ->
  heap (sampled_world w this config spans f drawn) !! a = Some o ->
  a = this /\ o = TracerObj config (spans ++ [length (heap w)])
  \/ a = length (heap w) /\ o = SpanImpl f this config
  \/ a <> this /\ heap w !! a = Some o.
Proof.
  intros H. pose proof (lookup_lt_Some _ _ _ H) as Hlt. simpl.
  destruct (decide (a = this)) as [->|Hne].
  - rewrite list_lookup_insert_eq by (rewrite length_app; lia).
    intros [= <-]. by left.
  - rewrite list_lookup_insert_ne by done.
    destruct (decide (a < length (heap w))%nat) as [Hin|Hout].
    + rewrite lookup_app_l by done. auto.
    + rewrite lookup_app_r by lia.
      destruct (a - length (heap w))%nat as [|k] eqn:E; [|by destruct k].
      intros [= <-]. right. left. split; [lia|done].
Qed.

Lemma hex_id_truthy n s : hex_id (S n) s -> truthy (Some s) = Some s.
Proof. intros [Hlen _]. by destruct s. Qed.

(** One sampled call in a world whose identifiers are well formed. *)
Lemma startSpan_step (w : World) (this : addr) (config : TracerConfig)
    (spans : list addr) (name : string) (options : SpanOptions) :
  heap w !! this = Some (TracerObj config spans) ->
  sampleRate config = Some 1%Q ->
  unit_draws w ->
  ids_well_formed w ->
  let span := length (heap w) in
  let w' := (startSpan this name options w).2 in
  (startSpan this name options w).1 = Return span /\
  exists f,
    heap w' !! span = Some (SpanImpl f this config) /\
    hex_id 32 (Span.traceId f) /\
    hex_id 16 (Span.spanId f) /\
    (forall p fp tp cp,
       opt_parent options = Some p ->
       heap w !! p = Some (SpanImpl fp tp cp) ->
       Span.traceId f = Span.traceId fp) /\
    heap w' !! this = Some (TracerObj config (spans ++ [span])) /\
    ids_well_formed w' /\
    unit_draws w'.
Proof.
  intros H Hrate Hw Hwf span w'.
  pose proof (startSpan_run w this config spans name options H) as Hrun.
  rewrite Qlt_bool_true in Hrun.
  2:{ unfold sampleRate_or_one. rewrite Hrate. simpl. apply Hw. }
  destruct Hrun as (tid & sid & d & Hrun & Htid & Hsid).
  unfold w'. rewrite Hrun. simpl fst. simpl snd. split; [done|].
  set (f := fresh_fields w name options tid sid).
  assert (Hparent : forall p fp tp cp,
    opt_parent options = Some p ->
    heap w !! p = Some (SpanImpl fp tp cp) -> tid = Span.traceId fp).
  { intros p fp tp cp Hp Hfp. unfold inherited_traceId in Htid.
    rewrite Hp, Hfp in Htid.
    destruct (Hwf _ _ Hfp) as [Hx _].
    by rewrite (hex_id_truthy _ _ Hx) in Htid. }
  assert (Hx32 : hex_id 32 tid).
  { unfold inherited_traceId in Htid.
    destruct (opt_parent options) as [p|]; [|by apply Htid].
    destruct (heap w !! p) as [o|] eqn:Hp; [|by apply Htid].
    pose proof (Hwf _ _ Hp) as Ho.
    destruct o as [fp tp cp|fp| |]; try by apply Htid.
    - destruct Ho as [Hx _]. rewrite (hex_id_truthy _ _ Hx) in Htid.
      by subst tid.
    - rewrite Ho in Htid. by apply Htid. }
  exists f. split; [by apply sampled_world_lookup_span|].
  split; [done|]. split; [by apply Hsid|]. split; [exact Hparent|].
  split.
  { simpl. apply list_lookup_insert_eq. rewrite length_app.
    apply lookup_lt_Some in H. lia. }
  split; [|done].
  intros a o Ha.
  apply (sampled_world_lookup_old _ _ _ _ _ _ _ _ H) in Ha
    as [[_ ->]|[[_ ->]|[_ Ha]]]; [done| |by apply (Hwf a)].
  split; [done|by apply Hsid].
Qed.

(** What every run of [startSpan] calls on a tracer of rate 1 keeps. *)
Lemma start_all_invariant (this : addr) (config : TracerConfig)
    (calls : list (string * SpanOptions)) : forall (w : World) spans,
  heap w !! this = Some (TracerObj config spans) ->
  sampleRate config = Some 1%Q ->
  unit_draws w ->
  ids_well_formed w ->
  let w' := start_all this calls w in
  (exists spans', heap w' !! this = Some (TracerObj config spans')) /\
  unit_draws w' /\
  ids_well_formed w'.
Proof.
  induction calls as [|[name options] calls IH]; intros w spans H Hr Hw Hwf.
  - simpl. split; [by exists spans|done].
  - destruct (startSpan_step w this config spans name options H Hr Hw Hwf)
      as (_ & f & _ & _ & _ & _ & Ht & Hwf' & Hw').
    simpl. by eapply IH.
Qed.

Lemma span_at_intro w (a : addr) f t c :
  heap w !! a = Some (SpanImpl f t c) -> span_at w a = Some f.
Proof. unfold span_at. by intros ->. Qed.

Lemma span_at_SpanImpl w a f :
  span_at w a = Some f -> exists t c, heap w !! a = Some (SpanImpl f t c).
Proof.
  unfold span_at. destruct (heap w !! a) as [[]|]; intros [=].
  subst. by do 2 eexists.
Qed.

(** Along any run of [startSpan] calls on a tracer created with
    [sampleRate = 1] in a fresh world, every span returned is sampled with
    well-formed identifiers, and a child of a span created before has the
    [traceId] of its parent. *)
Lemma startSpan_ids_run (w0 : World) (config : TracerConfig)
    (calls : list (string * SpanOptions)) (name : string)
    (options : SpanOptions) :
  heap w0 = [] ->
  unit_draws w0 ->
  sampleRate config = Some 1%Q ->
  let this := 0%nat in
  let w := start_all this calls (new_Tracer config w0).2 in
  let span := length (heap w) in
  let w' := (startSpan this name options w).2 in
  (new_Tracer config w0).1 = Return this /\
  (startSpan this name options w).1 = Return span /\
  exists f,
    span_at w' span = Some f /\
    hex_id 32 (Span.traceId f) /\
    hex_id 16 (Span.spanId f) /\
    (forall p fp,
       opt_parent options = Some p ->
       span_at w p = Some fp ->
       Span.traceId f = Span.traceId fp).
Proof.
  intros Hh Hw Hr this w span w'.
  set (config' := {| tr_service := tr_service config;
                     tr_endpoint := tr_endpoint config;
                     sampleRate := Some (default 1%Q (sampleRate config)) |}).
  assert (Hnew : new_Tracer config w0
                 = (Return this, with_heap w0 [TracerObj config' []])).
  { unfold new_Tracer, alloc. by rewrite Hh. }
  split; [by rewrite Hnew|].
  assert (Hr' : sampleRate config' = Some 1%Q) by (simpl; by rewrite Hr).
  destruct (start_all_invariant this config' calls
              (with_heap w0 [TracerObj config' []]) [])
    as ((spans & Ht) & Hw1 & Hwf1); [done|done|done| |].
  { intros [|a] o; simpl; [by intros [= <-]|done]. }
  assert (Hweq : w = start_all this calls (with_heap w0 [TracerObj config' []])).
  { unfold w. by rewrite Hnew. }
  rewrite <- Hweq in Ht, Hw1, Hwf1.
  destruct (startSpan_step w this config' spans name options Ht Hr' Hw1 Hwf1)
    as (Hs & f & Hf & H32 & H16 & Hp & _).
  split; [exact Hs|]. exists f.
  split; [by apply (span_at_intro _ _ _ _ _ Hf)|].
  split; [done|]. split; [done|].
  intros p fp Hpo Hfp. apply span_at_SpanImpl in Hfp as (tp & cp & Hfp).
  by eapply Hp.
Qed.

Lemma inherited_traceId_fields w options :
  inherited_traceId w options
  = match opt_parent options with
    | Some p =>
        match fields_at w p with
        | Some fp => truthy (Some (Span.traceId fp))
        | None => None
        end
    | None => None
    end.
Proof.
  unfold inherited_traceId, fields_at.
  destruct (opt_parent options) as [p|]; [|done].
  by destruct (heap w !! p) as [[]|].
Qed.

Lemma truthy_Some_iff s :
  truthy (Some s) = if String.eqb s EmptyString then None else Some s.
Proof. reflexivity. Qed.

(** C4, as the code has it: on a tracer with [sampleRate = 1], whatever the
    world holds, [startSpan] returns a new sampled span whose [spanId] is 16
    lowercase hexadecimal characters.  Its [traceId] is that of
    [options.parent] when the parent has a non-empty one, and 32 fresh
    lowercase hexadecimal characters when there is no parent or the parent's
    [traceId] is empty.  So where the identifiers of the spans that exist
    are well formed, the [traceId] is 32 hexadecimal characters in either
    case, and the identifiers stay well formed. *)
Theorem startSpan_ids (w : World) (this : addr) (config : TracerConfig)
    (spans : list addr) (name : string) (options : SpanOptions) :
  heap w !! this = Some (TracerObj config spans) ->
  sampleRate config = Some 1%Q ->
  unit_draws w ->
  let span := length (heap w) in
  let w' := (startSpan this name options w).2 in
  (startSpan this name options w).1 = Return span /\
  exists f,
    span_at w' span = Some f /\
    hex_id 16 (Span.spanId f) /\
    (forall p fp,
       opt_parent options = Some p ->
       fields_at w p = Some fp ->
       Span.traceId fp <> EmptyString ->
       Span.traceId f = Span.traceId fp) /\
    ((forall p fp,
        opt_parent options = Some p ->
        fields_at w p = Some fp ->
        Span.traceId fp = EmptyString) ->
     hex_id 32 (Span.traceId f)) /\
    (ids_well_formed w ->
     hex_id 32 (Span.traceId f) /\ ids_well_formed w').
Proof.
  intros H Hrate Hw span w'.
  pose proof (startSpan_run w this config spans name options H) as Hrun.
  rewrite Qlt_bool_true in Hrun.
  2:{ unfold sampleRate_or_one. rewrite Hrate. simpl. apply Hw. }
  destruct Hrun as (tid & sid & d & Hrun & Htid & Hsid).
  unfold w'. rewrite Hrun. simpl fst. simpl snd. split; [done|].
  rewrite inherited_traceId_fields in Htid.
  exists (fresh_fields w name options tid sid).
  split.
  { apply (span_at_intro _ _ _ this config).
    by apply sampled_world_lookup_span. }
  split; [by apply Hsid|]. simpl Span.traceId.
  split; [|split].
  - intros p fp Hp Hfp Hne. rewrite Hp, Hfp, truthy_Some_iff in Htid.
    destruct (String.eqb_spec (Span.traceId fp) EmptyString); [done|].
    exact Htid.
  - intros Hempty.
    destruct (opt_parent options) as [p|] eqn:Hp; [|by apply Htid].
    destruct (fields_at w p) as [fp|] eqn:Hfp; [|by apply Htid].
    rewrite truthy_Some_iff, (Hempty p fp eq_refl Hfp) in Htid.
    by apply Htid.
  - intros Hwf.
    assert (Hx32 : hex_id 32 tid).
    { destruct (opt_parent options) as [p|]; [|by apply Htid].
      unfold fields_at in Htid.
      destruct (heap w !! p) as [o|] eqn:Hp; [|by apply Htid].
      pose proof (Hwf _ _ Hp) as Ho.
      destruct o as [fp tp cp|fp| |]; try by apply Htid.
      - destruct Ho as [Hx _]. rewrite (hex_id_truthy _ _ Hx) in Htid.
        by subst tid.
      - rewrite Ho in Htid. by apply Htid. }
    split; [done|].
    intros a o Ha.
    apply (sampled_world_lookup_old _ _ _ _ _ _ _ _ H) in Ha
      as [[_ ->]|[[_ ->]|[_ Ha]]]; [done| |by apply (Hwf a)].
    split; [done|by apply Hsid].
Qed.

Lemma cycling_world_unit_draws (w : World) :
  random w = random cycling_world -> unit_draws w.
Proof.
  intros Hr n. rewrite Hr. simpl.
  pose proof (Nat.mod_upper_bound n 16) as Hn.
  unfold Qle, Qlt. simpl. split; lia.
Qed.

(** A child of the span a first call created, in a world whose draws
    differ: the parent's identifiers are [chars] from its second character
    on, and the child's [spanId] starts one character later. *)
Lemma startSpan_ids_witness :
  let w := (demo_span cycling_world).2 in
  let this := 0%nat in
  let config := demo_config (Some 1%Q) in
  let options := child_of 1%nat in
  heap w !! this = Some (TracerObj config [1%nat]) /\
  sampleRate config = Some 1%Q /\
  unit_draws w /\
  let span := length (heap w) in
  let w' := (startSpan this "child" options w).2 in
  (startSpan this "child" options w).1 = Return span /\
  exists f,
    span_at w' span = Some f /\
    hex_id 16 (Span.spanId f) /\
    (forall p fp,
       opt_parent options = Some p ->
       fields_at w p = Some fp ->
       Span.traceId fp <> EmptyString ->
       Span.traceId f = Span.traceId fp) /\
    ((forall p fp,
        opt_parent options = Some p ->
        fields_at w p = Some fp ->
        Span.traceId fp = EmptyString) ->
     hex_id 32 (Span.traceId f)) /\
    (ids_well_formed w ->
     hex_id 32 (Span.traceId f) /\ ids_well_formed w').
Proof.
  assert (Hd : unit_draws (demo_span cycling_world).2).
  { by apply cycling_world_unit_draws. }
  split; [reflexivity|]. split; [reflexivity|]. split; [exact Hd|].
  apply (startSpan_ids (demo_span cycling_world).2 0%nat
           (demo_config (Some 1%Q)) [1%nat] "child" (child_of 1%nat));
    [reflexivity|reflexivity|exact Hd].
Defined.

(** The identifiers of that parent and child, computed. *)
Example child_inherits_traceId :
  let w := (demo_span cycling_world).2 in
  let w' := (startSpan 0%nat "child" (child_of 1%nat) w).2 in
  (Span.traceId <$> span_at w 1%nat)
    = Some "123456789abcdef0123456789abcdef0" /\
  (Span.spanId <$> span_at w 1%nat) = Some "123456789abcdef0" /\
  (Span.traceId <$> span_at w' 2%nat)
    = Some "123456789abcdef0123456789abcdef0" /\
  (Span.spanId <$> span_at w' 2%nat) = Some "23456789abcdef01".
Proof. vm_compute. done. Qed.

(** C4 fails as stated: a span started with [options.parent] set to a span
    that was not sampled does not get the parent's [traceId], which is
    empty, but a fresh one.  The tracer that starts it has [sampleRate = 1];
    the parent comes from a tracer of rate 1/4. *)
Lemma unsampled_parent_not_inherited :
  let out := child_of_unsampled demo_world in
  out.1 = Return 3%nat /\
  (exists spans,
     heap out.2 !! 2%nat = Some (TracerObj (demo_config (Some 1%Q)) spans)) /\
  (Span.traceId <$> fields_at out.2 1%nat) = Some EmptyString /\
  (Span.traceId <$> fields_at out.2 3%nat)
    = Some "88888888888888888888888888888888" /\
  (Span.traceId <$> fields_at out.2 3%nat)
    <> (Span.traceId <$> fields_at out.2 1%nat).
Proof.
  vm_compute. split; [done|]. split; [by eexists|]. done.
Qed.

(** *** Sampling *)

(** C3 on the code: a tracer configured with [sampleRate = 0] samples every
    call.  [startSpan] returns a sampled span, registered with the tracer,
    and [end()] on it runs the completion callback. *)
Theorem zero_sampleRate_samples (w : World) (this : addr)
    (config : TracerConfig) (spans : list addr) (name : string)
    (options : SpanOptions) :
  heap w !! this = Some (TracerObj config spans) ->
  sampleRate config = Some 0%Q ->
  unit_draws w ->
  let span := length (heap w) in
  let w' := (startSpan this name options w).2 in
  (startSpan this name options w).1 = Return span /\
  (exists f, heap w' !! span = Some (SpanImpl f this config)) /\
  heap w' !! this = Some (TracerObj config (spans ++ [span])) /\
  (end_ span w').1 = Return tt /\
  completions span (observed (end_ span w').2)
    = S (completions span (observed w')).
Proof.
  intros H Hrate Hw span w'.
  pose proof (startSpan_run w this config spans name options H) as Hrun.
  rewrite Qlt_bool_true in Hrun.
  2:{ unfold sampleRate_or_one. rewrite Hrate. simpl. apply Hw. }
  destruct Hrun as (tid & sid & d & Hrun & _).
  unfold w'. rewrite Hrun. simpl fst. simpl snd. split; [done|].
  pose proof (sampled_world_lookup_span w this config spans
                (fresh_fields w name options tid sid) d H) as Hs.
  split; [by eexists|]. split.
  { simpl. apply list_lookup_insert_eq. rewrite length_app.
    apply lookup_lt_Some in H. lia. }
  subst span.
  destruct (end_SpanImpl _ _ _ _ _ Hs) as (w2 & -> & _ & pr & Ho & Hc & _).
  split; [done|]. simpl snd. rewrite Ho.
  rewrite !completions_app, Hc. unfold completions at 2. simpl.
  rewrite Nat.eqb_refl. simpl. lia.
Qed.

Lemma zero_sampleRate_samples_witness :
  let w := (new_Tracer (demo_config (Some 0%Q)) demo_world).2 in
  let this := 0%nat in
  let config := demo_config (Some 0%Q) in
  heap w !! this = Some (TracerObj config []) /\
  sampleRate config = Some 0%Q /\
  unit_draws w /\
  let span := length (heap w) in
  let w' := (startSpan this "work" no_options w).2 in
  (startSpan this "work" no_options w).1 = Return span /\
  (exists f, heap w' !! span = Some (SpanImpl f this config)) /\
  heap w' !! this = Some (TracerObj config ([] ++ [span])) /\
  (end_ span w').1 = Return tt /\
  completions span (observed (end_ span w').2)
    = S (completions span (observed w')).
Proof.
  assert (Hd : unit_draws (new_Tracer (demo_config (Some 0%Q)) demo_world).2).
  { intros n. split; [by compute|reflexivity]. }
  split; [reflexivity|]. split; [reflexivity|]. split; [exact Hd|].
  apply (zero_sampleRate_samples
           (new_Tracer (demo_config (Some 0%Q)) demo_world).2 0%nat
           (demo_config (Some 0%Q)) [] "work" no_options);
    [reflexivity|reflexivity|exact Hd].
Defined.

Lemma setAttribute_EmptyObject w a key value :
  heap w !! a = Some EmptyObject ->
  (setAttribute a key value w).1 = Throw (not_a_function "setAttribute").
Proof.
  intros H. unfold setAttribute, bind, observe, read, throw. simpl.
  by rewrite H.
Qed.

(** The mutators of a no-op span do not return the span: they return a
    fresh empty object, on which a chained call throws. *)
Lemma noop_mutator_returns_empty_object w span f key value :
  heap w !! span = Some (NoopSpan f) ->
  let r := length (heap w) in
  let w' := (setAttribute span key value w).2 in
  (setAttribute span key value w).1 = Return r /\
  r <> span /\
  heap w' !! r = Some EmptyObject /\
  heap w' !! span = Some (NoopSpan f) /\
  (setAttribute r key value w').1 = Throw (not_a_function "setAttribute").
Proof.
  intros H r w'. pose proof (lookup_lt_Some _ _ _ H) as Hlt.
  assert (Hrun : setAttribute span key value w
    = (Return r,
       with_heap
         (with_observed w
            (observed w ++ [Called span (Span.setAttribute key value)]))
         (heap w ++ [EmptyObject]))).
  { unfold setAttribute, bind, observe, read, alloc. simpl. by rewrite H. }
  unfold w'. rewrite Hrun. simpl fst. simpl snd.
  assert (Hr : (heap w ++ [EmptyObject]) !! r = Some EmptyObject).
  { unfold r. by rewrite lookup_app_r, Nat.sub_diag by lia. }
  split; [done|]. split; [unfold r; lia|]. split; [exact Hr|].
  split; [simpl; by rewrite lookup_app_l|].
  by apply setAttribute_EmptyObject.
Qed.

(** *** [trace] *)

Lemma calls_on_app span es es' :
  calls_on span (es ++ es') = calls_on span es ++ calls_on span es'.
Proof. unfold calls_on. by rewrite flat_map_app. Qed.

Lemma calls_on_none span es :
  (forall a call, ~ In (Called a call) es) -> calls_on span es = [].
Proof.
  induction es as [|e es IH]; intros H; [done|].
  simpl. rewrite IH by (intros a call Hin; apply (H a call); by right).
  destruct e as [| a call | |]; try done.
  exfalso. apply (H a call). by left.
Qed.

Lemma end_NoopSpan span w f :
  heap w !! span = Some (NoopSpan f) ->
  end_ span w
  = (Return tt, with_observed w (observed w ++ [Called span Span.end_])).
Proof.
  intros H. unfold end_, bind, observe, read, ret. simpl. by rewrite H.
Qed.

(** [setStatus] followed by [end()] on a sampled span. *)
Lemma finish_SpanImpl span w f t c status message :
  heap w !! span = Some (SpanImpl f t c) ->
  exists wa wb f',
    setStatus span status message w = (Return span, wa) /\
    end_ span wa = (Return tt, wb) /\
    calls_on span (observed wb)
      = calls_on span (observed w)
        ++ [Span.setStatus status message; Span.end_] /\
    completions span (observed wb) = S (completions span (observed w)) /\
    heap wb !! span = Some (SpanImpl f' t c) /\
    Span.status f' = status /\
    is_Some (Span.endTime f') /\
    (forall s, truthy message = Some s ->
       Span.attributes f' !! "status.message" = Some (Span.AStr s)).
Proof.
  intros H. pose proof (lookup_lt_Some _ _ _ H) as Hlt.
  rewrite (setStatus_SpanImpl _ status message _ _ _ _ H).
  set (fa := match truthy message with Some _ => _ | None => _ end).
  set (wa := with_heap _ _).
  assert (Ha : heap wa !! span = Some (SpanImpl fa t c)).
  { simpl. by apply list_lookup_insert_eq. }
  destruct (end_SpanImpl _ _ _ _ _ Ha) as (wb & Hend & Hh & pr & Ho & Hc & Hn).
  exists wa, wb, (Span.with_endTime fa (Some (clock wa (ticks wa)))).
  split; [done|]. split; [done|]. split; [|split; [|split]].
  - rewrite Ho.
    change (observed wa)
      with (observed w ++ [Called span (Span.setStatus status message)]).
    rewrite !calls_on_app, (calls_on_none _ pr) by done.
    simpl. rewrite Nat.eqb_refl. simpl. by rewrite <- app_assoc.
  - rewrite Ho.
    change (observed wa)
      with (observed w ++ [Called span (Span.setStatus status message)]).
    rewrite !completions_app, Hc.
    unfold completions at 2 3. simpl. rewrite Nat.eqb_refl. simpl. lia.
  - rewrite Hh. apply list_lookup_insert_eq. simpl. by rewrite length_insert.
  - unfold fa. destruct (truthy message) as [s|]; simpl.
    + split; [done|]. split; [by eexists|].
      intros s' [= <-]. by rewrite lookup_insert_eq.
    + split; [done|]. split; [by eexists|]. done.
Qed.

(** The same on a no-op span: nothing but the calls is left behind. *)
Lemma finish_NoopSpan span w f status message :
  heap w !! span = Some (NoopSpan f) ->
  exists wa wb,
    setStatus span status message w = (Return (length (heap w)), wa) /\
    end_ span wa = (Return tt, wb) /\
    calls_on span (observed wb)
      = calls_on span (observed w)
        ++ [Span.setStatus status message; Span.end_] /\
    completions span (observed wb) = completions span (observed w) /\
    heap wb !! span = Some (NoopSpan f).
Proof.
  intros H. pose proof (lookup_lt_Some _ _ _ H) as Hlt.
  rewrite (setStatus_NoopSpan _ status message _ _ H).
  set (wa := with_heap _ _).
  assert (Ha : heap wa !! span = Some (NoopSpan f)).
  { simpl. by rewrite lookup_app_l. }
  exists wa, (with_observed wa (observed wa ++ [Called span Span.end_])).
  split; [done|]. split; [by apply (end_NoopSpan _ _ f)|]. simpl.
  split; [|split; [|by rewrite lookup_app_l]].
  - rewrite !calls_on_app. simpl. rewrite Nat.eqb_refl. simpl.
    by rewrite <- app_assoc.
  - rewrite !completions_app. unfold completions at 2 3. simpl. lia.
Qed.

Lemma class_at_SpanImpl w a t c :
  class_at w a = Some (CSpanImpl t c) ->
  exists f, heap w !! a = Some (SpanImpl f t c).
Proof.
  unfold class_at. destruct (heap w !! a) as [[]|]; simpl; intros [=].
  subst. by eexists.
Qed.

Lemma class_at_NoopSpan w a :
  class_at w a = Some CNoopSpan -> exists f, heap w !! a = Some (NoopSpan f).
Proof.
  unfold class_at. destruct (heap w !! a) as [[]|]; simpl; intros [=].
  by eexists.
Qed.

(** The span [startSpan] returns is a sampled span of this tracer or a no-op
    span. *)
Lemma startSpan_class w this config spans name options :
  heap w !! this = Some (TracerObj config spans) ->
  let span := length (heap w) in
  let w1 := (startSpan this name options w).2 in
  (startSpan this name options w).1 = Return span /\
  (class_at w1 span = Some (CSpanImpl this config)
   \/ class_at w1 span = Some CNoopSpan).
Proof.
  intros H span w1.
  pose proof (startSpan_run w this config spans name options H) as Hrun.
  destruct (Qlt_bool _ _).
  - destruct Hrun as (tid & sid & d & Hrun & _).
    unfold w1. rewrite Hrun. split; [done|]. left. unfold class_at.
    simpl snd. by rewrite (sampled_world_lookup_span _ _ _ _ _ _ H).
  - unfold w1. rewrite Hrun. split; [done|]. right. unfold class_at. simpl.
    by rewrite lookup_app_r, Nat.sub_diag by lia.
Qed.

Lemma Qlt_bool_lt x y : Qlt_bool x y = true -> (x < y)%Q.
Proof.
  unfold Qlt_bool. destruct (Qle_bool y x) eqn:E; [done|]. intros _.
  apply Qnot_le_lt. intros Hle. apply Qle_bool_iff in Hle. congruence.
Qed.

Lemma truthy_nonempty s : s <> EmptyString -> truthy (Some s) = Some s.
Proof. intros Hne. unfold truthy. by destruct (String.eqb_spec s EmptyString). Qed.

(** C2: [trace] returns what [fn] returns and throws what [fn] throws;
    after [fn] it calls [setStatus('ok')] on a normal return, or
    [setStatus('error', message)] with the message of the [Error] thrown,
    or "Unknown error" when what was thrown is not an [Error], and then
    [end()], once, on either path.  When the sampling draw is below the
    rate the span is a sampled one: this leaves the status set, [endTime]
    stamped, a non-empty message recorded and the completion callback run
    exactly once.  Otherwise the span is a no-op span and nothing is
    recorded or completed. *)
Theorem trace_exit_paths {T : Type} (w : World) (this : addr)
    (config : TracerConfig) (spans : list addr) (name : string)
    (fn : addr -> M T) (options : SpanOptions) :
  heap w !! this = Some (TracerObj config spans) ->
  keeps_classes fn ->
  let span := length (heap w) in
  let w1 := (startSpan this name options w).2 in
  let r := (fn span w1).1 in
  let w2 := (fn span w1).2 in
  let w3 := (trace this name fn options w).2 in
  let status := match r with Return _ => Span.ok | Throw _ => Span.error end in
  let message :=
    match r with
    | Return _ => None
    | Throw (ErrorInstance e) => Some (err_message e)
    | Throw (NonError _) => Some "Unknown error"
    end in
  let rate :=
    match sampleRate config with
    | Some s => if Qeq_bool s 0 then 1%Q else s
    | None => 1%Q
    end in
  (startSpan this name options w).1 = Return span /\
  (trace this name fn options w).1 = r /\
  calls_on span (observed w3)
    = calls_on span (observed w2) ++ [Span.setStatus status message; Span.end_] /\
  ((random w (draws w) < rate)%Q ->
   exists f,
     heap w3 !! span = Some (SpanImpl f this config) /\
     Span.status f = status /\
     is_Some (Span.endTime f) /\
     (forall s, message = Some s -> s <> EmptyString ->
        Span.attributes f !! "status.message" = Some (Span.AStr s)) /\
     completions span (observed w3) = S (completions span (observed w2))) /\
  ((rate <= random w (draws w))%Q ->
   exists f,
     heap w3 !! span = Some (NoopSpan f) /\
     completions span (observed w3) = completions span (observed w2)).
Proof.
  intros H Hk span w1 r w2 w3 status message rate.
  pose proof (startSpan_run w this config spans name options H) as Hrun.
  change (sampleRate_or_one config) with rate in Hrun.
  assert (Hs : startSpan this name options w = (Return span, w1) /\
               class_at w1 span
               = Some (if Qlt_bool (random w (draws w)) rate
                       then CSpanImpl this config else CNoopSpan)).
  { unfold w1. destruct (Qlt_bool _ _).
    - destruct Hrun as (tid & sid & d & Hrun & _). rewrite Hrun.
      split; [done|]. unfold class_at. simpl snd.
      by rewrite (sampled_world_lookup_span _ _ _ _ _ _ H).
    - rewrite Hrun. split; [done|]. unfold class_at. simpl.
      by rewrite lookup_app_r, Nat.sub_diag by lia. }
  destruct Hs as [Hstart Hcl]. clear Hrun.
  split; [by rewrite Hstart|].
  assert (Htrace : trace this name fn options w
    = try_catch_finally
        (result <- fn span ;; setStatus span Span.ok None ;;; ret result)
        (fun error =>
           setStatus span Span.error (Some (thrown_message error)) ;;;
           throw error)
        (end_ span) w1).
  { unfold trace. by rewrite (bind_Return _ _ _ _ _ Hstart). }
  subst w3. rewrite Htrace. clear Htrace.
  assert (Hfn : fn span w1 = (r, w2)) by (unfold r, w2; by destruct (fn span w1)).
  assert (Hcl2 : class_at w2 span
                 = Some (if Qlt_bool (random w (draws w)) rate
                         then CSpanImpl this config else CNoopSpan)).
  { unfold w2. by apply Hk. }
  clearbody w1 w2 r. clear Hk Hcl Hstart H.
  unfold try_catch_finally, bind. rewrite Hfn.
  destruct (Qlt_bool (random w (draws w)) rate) eqn:Eq.
  - apply class_at_SpanImpl in Hcl2 as [f2 Hf2].
    destruct (finish_SpanImpl span w2 f2 this config status message Hf2)
      as (wa & wb & f' & Hset & Hend & Hcalls & Hcomp & Hh & Hst & Het & Hmsg).
    destruct r as [v|[e|v]]; subst status message;
      unfold thrown_message; cbv beta iota;
      rewrite Hset; unfold ret, throw; cbv beta iota; rewrite Hend;
      (split; [done|]); (split; [exact Hcalls|]);
      (split;
        [ intros _; exists f'; (split; [exact Hh|]); (split; [exact Hst|]);
          (split; [exact Het|]); (split; [|exact Hcomp]);
          intros s Hs Hne; apply Hmsg;
          rewrite Hs; by apply truthy_nonempty
        | intros Hge; apply Qlt_bool_lt in Eq;
          by apply Qlt_not_le in Eq ]).
  - apply class_at_NoopSpan in Hcl2 as [f2 Hf2].
    destruct (finish_NoopSpan span w2 f2 status message Hf2)
      as (wa & wb & Hset & Hend & Hcalls & Hcomp & Hh).
    destruct r as [v|[e|v]]; subst status message;
      unfold thrown_message; cbv beta iota;
      rewrite Hset; unfold ret, throw; cbv beta iota; rewrite Hend;
      (split; [done|]); (split; [exact Hcalls|]);
      (split;
        [ intros Hlt; apply Qlt_bool_true in Hlt; congruence
        | intros _; by exists f2 ]).
Qed.

Lemma failing_fn_keeps_classes : keeps_classes failing_fn.
Proof.
  intros span w a k. unfold class_at, failing_fn, setAttribute, bind, observe,
    read, write, alloc, throw, ret. simpl.
  destruct (heap w !! span) as [[f t c|f| |]|] eqn:Es; simpl; try done.
  - destruct (decide (a = span)) as [->|Hne].
    + rewrite Es. simpl. intros [= <-].
      rewrite list_lookup_insert_eq by (by eapply lookup_lt_Some). done.
    + by rewrite list_lookup_insert_ne.
  - destruct (heap w !! a) as [o|] eqn:Ea; [|done].
    by rewrite (lookup_app_l_Some _ _ _ _ Ea).
Qed.

(** The specification's example: [fn] throws [Error("x")]. *)
Lemma trace_exit_paths_witness :
  let w := (new_Tracer (demo_config None) demo_world).2 in
  let this := 0%nat in
  let config := demo_config (Some 1%Q) in
  heap w !! this = Some (TracerObj config []) /\
  keeps_classes failing_fn /\
  let span := length (heap w) in
  let w1 := (startSpan this "work" no_options w).2 in
  let r := (failing_fn span w1).1 in
  let w2 := (failing_fn span w1).2 in
  let w3 := (trace this "work" failing_fn no_options w).2 in
  let status := match r with Return _ => Span.ok | Throw _ => Span.error end in
  let message :=
    match r with
    | Return _ => None
    | Throw (ErrorInstance e) => Some (err_message e)
    | Throw (NonError _) => Some "Unknown error"
    end in
  let rate :=
    match sampleRate config with
    | Some s => if Qeq_bool s 0 then 1%Q else s
    | None => 1%Q
    end in
  (startSpan this "work" no_options w).1 = Return span /\
  (trace this "work" failing_fn no_options w).1 = r /\
  calls_on span (observed w3)
    = calls_on span (observed w2) ++ [Span.setStatus status message; Span.end_] /\
  ((random w (draws w) < rate)%Q ->
   exists f,
     heap w3 !! span = Some (SpanImpl f this config) /\
     Span.status f = status /\
     is_Some (Span.endTime f) /\
     (forall s, message = Some s -> s <> EmptyString ->
        Span.attributes f !! "status.message" = Some (Span.AStr s)) /\
     completions span (observed w3) = S (completions span (observed w2))) /\
  ((rate <= random w (draws w))%Q ->
   exists f,
     heap w3 !! span = Some (NoopSpan f) /\
     completions span (observed w3) = completions span (observed w2)).
Proof.
  split; [reflexivity|]. split; [exact failing_fn_keeps_classes|].
  apply (trace_exit_paths (new_Tracer (demo_config None) demo_world).2 0%nat
           (demo_config (Some 1%Q)) [] "work" failing_fn no_options);
    [reflexivity|exact failing_fn_keeps_classes].
Defined.

(** That run, computed: the error comes back unchanged, the span is in
    status [error] with message "x", and [end()] was called once. *)
Example trace_Error_x :
  let w := (new_Tracer (demo_config None) demo_world).2 in
  let out := trace 0%nat "work" failing_fn no_options w in
  out.1 = Throw (ErrorInstance {| err_name := "Error"; err_message := "x";
                                  err_stack := None |}) /\
  (Span.status <$> span_at out.2 1%nat) = Some Span.error /\
  attribute_at out.2 1%nat "status.message" = Some (Span.AStr "x") /\
  calls_on 1%nat (observed out.2)
    = [ Span.setAttribute "step" (Span.ANum 1);
        Span.setStatus Span.error (Some "x");
        Span.end_ ] /\
  completions 1%nat (observed out.2) = 1%nat.
Proof. vm_compute. done. Qed.

(** A rejection with a value that is not an [Error]: the value comes back
    unchanged and the span records "Unknown error". *)
Example trace_non_Error :
  let w := (new_Tracer (demo_config None) demo_world).2 in
  let out := trace 0%nat "work" rejecting_fn no_options w in
  out.1 = Throw (NonError (JStr "boom")) /\
  (Span.status <$> span_at out.2 1%nat) = Some Span.error /\
  attribute_at out.2 1%nat "status.message"
    = Some (Span.AStr "Unknown error") /\
  calls_on 1%nat (observed out.2)
    = [ Span.setStatus Span.error (Some "Unknown error"); Span.end_ ] /\
  completions 1%nat (observed out.2) = 1%nat.
Proof. vm_compute. done. Qed.

End TracingFacts.

(** ** The logger *)

Module LoggingFacts.
Import JS Logging LoggingRuns.

Lemma call_log this l message context err :
  call this l message context err
  = log this l message context (error_of l err).
Proof. by destruct l. Qed.

(** What [log] does, case by case. *)
Lemma log_run this l message context err w :
  let entry :=
    {| Log.level := l; Log.message := message;
       Log.timestamp := clock w (ticks w);
       Log.service := service (config this); Log.context := context;
       Log.error := err; Log.traceId := currentTraceId this;
       Log.spanId := currentSpanId this |} in
  log this l message context err w
  = if LOG_LEVELS (level (config this)) <=? LOG_LEVELS l then
      match formatEntry this entry with
      | inl e => (Throw e, stamped w)
      | inr formatted =>
          match destination (config this) with
          | Destination.console =>
              (Return tt, emit (Console (console_method l) formatted) (stamped w))
          | Destination.json =>
              (Return tt, emit (Console console_log formatted) (stamped w))
          | Destination.custom =>
              customHandler (config this) entry
                (emit (Handled entry) (stamped w))
          end
      end
    else (Return tt, w).
Proof.
  intros entry. subst entry.
  unfold log, shouldLog, bind, Date_now, lift, stamped, emit, observe,
    console, observe, ret, throw.
  destruct (LOG_LEVELS (level (config this)) <=? LOG_LEVELS l);
    cbv beta iota zeta delta [negb]; [|reflexivity].
  destruct (formatEntry this _) as [e|formatted]; [reflexivity|].
  destruct (destination (config this)); [destruct l| |]; reflexivity.
Qed.

(** C5, as the code has it: when formatting the entry completes, a call at
    level [l] on a logger of minimum level [m] emits exactly one entry if
    [LOG_LEVELS l >= LOG_LEVELS m], in the order
    debug(0) < info(1) < warn(2) < error(3) < fatal(4), and is a no-op
    otherwise.  The entry carries the level, the service, the message and
    the context of the call; it is printed once, formatted, by the console
    destinations and handed once to the handler of the custom one. *)
Theorem level_threshold (this : Logger) (l : Level.t) (message : string)
    (context : option (list (string * JsVal))) (err : option ErrorObj)
    (w : World) (formatted : string) :
  let entry := entry_of this l message context err w in
  formatEntry this entry = inr formatted ->
  (LOG_LEVELS Level.debug = 0 /\ LOG_LEVELS Level.info = 1 /\
   LOG_LEVELS Level.warn = 2 /\ LOG_LEVELS Level.error = 3 /\
   LOG_LEVELS Level.fatal = 4) /\
  Log.level entry = l /\ Log.service entry = service (config this) /\
  Log.message entry = message /\ Log.context entry = context /\
  (LOG_LEVELS l >= LOG_LEVELS (level (config this)) ->
   match destination (config this) with
   | Destination.console =>
       call this l message context err w
       = (Return tt, emit (Console (console_method l) formatted) (stamped w))
   | Destination.json =>
       call this l message context err w
       = (Return tt, emit (Console console_log formatted) (stamped w))
   | Destination.custom =>
       call this l message context err w
       = customHandler (config this) entry (emit (Handled entry) (stamped w))
   end) /\
  (LOG_LEVELS l < LOG_LEVELS (level (config this)) ->
   call this l message context err w = (Return tt, w)).
Proof.
  intros entry Hf. split; [done|]. do 4 (split; [done|]).
  rewrite call_log, log_run. fold (entry_of this l message context err w).
  fold entry. rewrite Hf. split; intros Hl.
  - destruct (Z.leb_spec (LOG_LEVELS (level (config this))) (LOG_LEVELS l));
      [|lia].
    by destruct (destination (config this)).
  - by destruct (Z.leb_spec (LOG_LEVELS (level (config this))) (LOG_LEVELS l));
      [lia|].
Qed.

Lemma level_threshold_witness :
  let this := json_logger in
  let l := Level.error in
  let context := Some plain_context in
  let w := log_world in
  let formatted := demo_line in
  let entry := entry_of this l "boom" context None w in
  formatEntry this entry = inr formatted /\
  (LOG_LEVELS Level.debug = 0 /\ LOG_LEVELS Level.info = 1 /\
   LOG_LEVELS Level.warn = 2 /\ LOG_LEVELS Level.error = 3 /\
   LOG_LEVELS Level.fatal = 4) /\
  Log.level entry = l /\ Log.service entry = service (config this) /\
  Log.message entry = "boom" /\ Log.context entry = context /\
  (LOG_LEVELS l >= LOG_LEVELS (level (config this)) ->
   match destination (config this) with
   | Destination.console =>
       call this l "boom" context None w
       = (Return tt, emit (Console (console_method l) formatted) (stamped w))
   | Destination.json =>
       call this l "boom" context None w
       = (Return tt, emit (Console console_log formatted) (stamped w))
   | Destination.custom =>
       call this l "boom" context None w
       = customHandler (config this) entry (emit (Handled entry) (stamped w))
   end) /\
  (LOG_LEVELS l < LOG_LEVELS (level (config this)) ->
   call this l "boom" context None w = (Return tt, w)).
Proof.
  split; [vm_compute; reflexivity|].
  apply (level_threshold json_logger Level.error "boom" (Some plain_context) None
           log_world demo_line).
  vm_compute; reflexivity.
Defined.

(** Below the minimum level nothing happens: [info] on a logger of level
    [warn] leaves the world as it was, the clock unread. *)
Example info_below_warn :
  call json_logger Level.info "boom" (Some plain_context) None log_world
  = (Return tt, log_world).
Proof. reflexivity. Qed.

(** C5 fails as stated: at a level that passes the threshold, a context that
    [JSON.stringify] rejects leaves no entry at all, on the console as with
    a custom handler. *)
Lemma no_entry_when_formatting_throws :
  let quiet := custom_logger (fun _ => ret tt) in
  LOG_LEVELS Level.error >= LOG_LEVELS (level (config json_logger)) /\
  observed
    (call json_logger Level.error "boom" (Some bigint_context) None
       log_world).2 = [] /\
  LOG_LEVELS Level.info >= LOG_LEVELS (level (config quiet)) /\
  observed
    (call quiet Level.info "boom" (Some bigint_context) None log_world).2
  = [].
Proof. repeat split; vm_compute; congruence. Qed.

(** In the JSON format the context is spread over the standard fields: a
    context key named [message] replaces the message in the printed line. *)
Example context_shadows_message :
  formatEntry json_logger
    (entry_of json_logger Level.error "boom" (Some shadowing_context) None
       log_world)
  = inr ("{" +:+ join ","
           [ dquote +:+ "timestamp" +:+ dquote +:+ ":" +:+ dquote
               +:+ "2023-11-14T22:13:20.000Z" +:+ dquote;
             dquote +:+ "level" +:+ dquote +:+ ":" +:+ dquote
               +:+ "error" +:+ dquote;
             dquote +:+ "service" +:+ dquote +:+ ":" +:+ dquote
               +:+ "api" +:+ dquote;
             dquote +:+ "message" +:+ dquote +:+ ":" +:+ dquote
               +:+ "other" +:+ dquote ] +:+ "}").
Proof. vm_compute. reflexivity. Qed.

(** C9, as the code has it: a call below the minimum level returns; a call
    at or above it throws what formatting the entry throws, with nothing
    emitted, whatever the destination; when formatting completes, the
    console destinations return and the custom destination returns or throws
    as the handler does.  No fallback is applied. *)
Theorem log_raises_what_formatting_raises (this : Logger) (l : Level.t)
    (message : string) (context : option (list (string * JsVal)))
    (err : option ErrorObj) (w : World) :
  let entry := entry_of this l message context err w in
  let out := call this l message context err w in
  if LOG_LEVELS (level (config this)) <=? LOG_LEVELS l then
    match formatEntry this entry with
    | inl e => out = (Throw e, stamped w)
    | inr formatted =>
        match destination (config this) with
        | Destination.custom =>
            out = customHandler (config this) entry
                    (emit (Handled entry) (stamped w))
        | _ => out.1 = Return tt
        end
    end
  else out = (Return tt, w).
Proof.
  intros entry out. unfold out. rewrite call_log, log_run.
  fold (entry_of this l message context err w). fold entry.
  destruct (LOG_LEVELS (level (config this)) <=? LOG_LEVELS l); [|done].
  destruct (formatEntry this entry) as [e|formatted]; [done|].
  by destruct (destination (config this)).
Qed.

(** C9 fails as stated: a context holding a BigInt makes the call throw the
    [TypeError] of [JSON.stringify], with nothing emitted; so it does with
    the custom destination and a handler that never throws; and a handler
    that throws is not shielded either. *)
Lemma log_throws :
  let bigint := TypeError "Do not know how to serialize a BigInt" in
  let quiet := custom_logger (fun _ => ret tt) in
  let failing := custom_logger (fun _ => throw (NonError (JStr "sink down"))) in
  call json_logger Level.error "boom" (Some bigint_context) None log_world
    = (Throw bigint, stamped log_world) /\
  call quiet Level.info "boom" (Some bigint_context) None log_world
    = (Throw bigint, stamped log_world) /\
  (call failing Level.info "boom" (Some plain_context) None log_world).1
    = Throw (NonError (JStr "sink down")).
Proof. repeat split; vm_compute; reflexivity. Qed.

End LoggingFacts.

(** ** More on the metrics registry *)

Module MetricsMore.
Import JS Metrics MetricsRuns MetricsOps JSFacts MetricsFacts.

(** *** Maps *)

Lemma Map_get_None_keys {V} k (m : list (string * V)) :
  Map_get k m = None <-> ~ In k (map fst m).
Proof.
  induction m as [|[k' v] m IH]; simpl; [tauto|].
  destruct (String.eqb_spec k' k) as [->|Hne].
  - split; [done|]. intros H. exfalso. apply H. by left.
  - rewrite IH. split; [intros H [?|?]; tauto|tauto].
Qed.

Lemma Map_set_keys {V} k (v : V) (m : list (string * V)) :
  map fst (Map_set k v m)
  = match Map_get k m with
    | Some _ => map fst m
    | None => map fst m ++ [k]
    end.
Proof.
  induction m as [|[k' v'] m IH]; simpl; [done|].
  destruct (String.eqb_spec k' k) as [->|Hne]; simpl; [done|].
  rewrite IH. by destruct (Map_get k m).
Qed.

Lemma Map_set_NoDup {V} k (v : V) (m : list (string * V)) :
  NoDup (map fst m) -> NoDup (map fst (Map_set k v m)).
Proof.
  intros H. rewrite Map_set_keys.
  destruct (Map_get k m) eqn:E; [done|].
  apply NoDup_app. split; [done|]. split; [|apply NoDup_singleton].
  intros x Hx Hk. apply list_elem_of_In in Hx.
  apply list_elem_of_singleton in Hk as ->.
  by apply Map_get_None_keys in E.
Qed.

Lemma Map_set_prefix {V} k (v : V) (m : list (string * V)) :
  map fst m `prefix_of` map fst (Map_set k v m).
Proof.
  rewrite Map_set_keys. destruct (Map_get k m); [done|].
  by apply prefix_app_r.
Qed.

(** *** Counters *)

Lemma inc_all_config calls m : config (inc_all calls m) = config m.
Proof.
  revert m. induction calls as [|c calls IH]; intros m; [done|].
  simpl. by rewrite IH.
Qed.

Lemma under_config m m' key calls :
  config m = config m' -> under m key calls = under m' key calls.
Proof.
  intros Hc. induction calls as [|c calls IH]; [done|].
  simpl. by rewrite IH, (getKey_config m m').
Qed.

(** A run of increments adds, to each series, what the calls under its key
    add up to, and creates the series at its first call. *)
Lemma inc_all_get calls : forall m key,
  Map_get key (counters (inc_all calls m))
  = match under m key calls with
    | [] => Map_get key (counters m)
    | _ :: _ => Some (default 0 (Map_get key (counters m)) + total m key calls)
    end.
Proof.
  induction calls as [|[[name v] labels] calls IH]; intros m key; [done|].
  simpl inc_all. rewrite IH. unfold total.
  rewrite !(under_config (counter_inc name v labels m) m) by done.
  simpl under.
  destruct (String.eqb_spec (getKey m name labels) key) as [<-|Hne].
  - rewrite counter_inc_get. simpl.
    destruct (under m _ calls); simpl; f_equal; unfold added; simpl; lia.
  - by rewrite counter_inc_get_ne.
Qed.

Lemma magnitude_filter {A} (f : A -> bool) (g : A -> Z) (l : list A) :
  magnitude (map g (List.filter f l)) <= magnitude (map g l).
Proof.
  induction l as [|x l IH]; [done|]. simpl. unfold magnitude in *.
  destruct (f x); simpl; lia.
Qed.

Lemma total_exact m key calls :
  magnitude (map added calls) <= MAX_EXACT -> exact (total m key calls).
Proof.
  intros H.
  assert (Hb : forall a b c, Z.abs a <= b -> b <= c -> c <= MAX_EXACT ->
                 exact a) by (unfold exact; lia).
  apply (Hb _ _ _ (sum_le_magnitude _)
           (magnitude_filter
              (fun c => String.eqb (getKey m c.1.1 c.2) key) added calls) H).
Qed.

(** X1: after any run of [inc] calls on a fresh registry whose values are
    integers with absolute values adding up to at most 2^53 (so that every
    addition is exact), a counter series that was incremented holds the sum
    of the values added under its key (the default 1 for a call without
    value), and a series never incremented does not exist. *)
Theorem counter_value_is_sum (cfg : MetricsConfig) (calls : list increment)
    (key : string) :
  magnitude (map added calls) <= MAX_EXACT ->
  let m := inc_all calls (new cfg) in
  Map_get key (counters m)
  = match under m key calls with
    | [] => None
    | _ :: _ => Some (total m key calls)
    end /\
  exact (total m key calls).
Proof.
  intros Hmag m. split; [|by apply total_exact].
  unfold m. rewrite inc_all_get. unfold total.
  rewrite (under_config (inc_all calls (new cfg)) (new cfg))
    by apply inc_all_config.
  destruct (under (new cfg) key calls); [done|]. simpl. by f_equal.
Qed.

Lemma counter_value_is_sum_witness :
  let calls := [("c", Some 5, None); ("d", Some (-2), None);
                ("c", None, None)] in
  magnitude (map added calls) <= MAX_EXACT /\
  let m := inc_all calls (new cfg0) in
  Map_get "c{}" (counters m)
  = match under m "c{}" calls with
    | [] => None
    | _ :: _ => Some (total m "c{}" calls)
    end /\
  exact (total m "c{}" calls).
Proof.
  split; [by vm_compute|].
  apply (counter_value_is_sum cfg0
           [("c", Some 5, None); ("d", Some (-2), None); ("c", None, None)]
           "c{}").
  by vm_compute.
Defined.

Lemma filter_Permutation_list {A} (f : A -> bool) (l l' : list A) :
  l ≡ₚ l' -> List.filter f l ≡ₚ List.filter f l'.
Proof.
  induction 1 as [|x l l' _ IH|x y l|l l' l'' _ IH _ IH']; simpl.
  - done.
  - destruct (f x); [by constructor|done].
  - destruct (f x), (f y); try done. apply perm_swap.
  - by etrans.
Qed.

Lemma sum_Permutation (l l' : list Z) :
  l ≡ₚ l' -> fold_right Z.add 0 l = fold_right Z.add 0 l'.
Proof.
  induction 1 as [|x l l' _ IH|x y l|l l' l'' _ IH _ IH']; simpl; lia.
Qed.

Lemma magnitude_Permutation (l l' : list Z) :
  l ≡ₚ l' -> magnitude l = magnitude l'.
Proof.
  intros Hp. unfold magnitude. apply sum_Permutation.
  by apply Permutation_map.
Qed.

(** X2: counters commute on the integer fragment.  Two runs of the same
    [inc] calls in different orders, the values being integers with absolute
    values adding up to at most 2^53, leave every series with the same
    value; the reordered run stays in the range in which the additions are
    exact. *)
Theorem counter_order_irrelevant (cfg : MetricsConfig)
    (calls calls' : list increment) (key : string) :
  calls ≡ₚ calls' ->
  magnitude (map added calls) <= MAX_EXACT ->
  Map_get key (counters (inc_all calls (new cfg)))
  = Map_get key (counters (inc_all calls' (new cfg))) /\
  magnitude (map added calls') <= MAX_EXACT.
Proof.
  intros Hp Hmag. split.
  2:{ by rewrite <- (magnitude_Permutation _ _ (Permutation_map added Hp)). }
  rewrite !inc_all_get. unfold total.
  pose proof (filter_Permutation_list
                (fun c => String.eqb (getKey (new cfg) c.1.1 c.2) key)
                _ _ Hp) as Hu.
  fold (under (new cfg) key calls) in Hu.
  fold (under (new cfg) key calls') in Hu.
  rewrite (sum_Permutation _ _ (Permutation_map added Hu)).
  destruct (under (new cfg) key calls) as [|c u] eqn:E.
  - apply Permutation_nil_l in Hu. by rewrite <- Hu.
  - destruct (under (new cfg) key calls') as [|c' u'] eqn:E'; [|done].
    by apply Permutation_nil_r in Hu.
Qed.

Lemma counter_order_irrelevant_witness :
  let get := (("m", "GET") :: nil : Labels) in
  let post := (("m", "POST") :: nil : Labels) in
  let calls := [("http", None, Some get); ("http", None, Some get);
                ("http", Some 5, Some post)] in
  let calls' := [("http", Some 5, Some post); ("http", None, Some get);
                 ("http", None, Some get)] in
  let key := getKey (new cfg0) "http" (Some get) in
  calls ≡ₚ calls' /\
  magnitude (map added calls) <= MAX_EXACT /\
  Map_get key (counters (inc_all calls (new cfg0)))
  = Map_get key (counters (inc_all calls' (new cfg0))) /\
  magnitude (map added calls') <= MAX_EXACT.
Proof.
  assert (H : [("http", None, Some [("m", "GET")]);
               ("http", None, Some [("m", "GET")]);
               ("http", Some 5, Some [("m", "POST")])]
              ≡ₚ [("http", Some 5, Some [("m", "POST")]);
                  ("http", None, Some [("m", "GET")]);
                  ("http", None, Some [("m", "GET")])]).
  { change (?a :: ?b :: ?c :: nil) with ([a; b] ++ [c]) at 1.
    apply Permutation_app_comm. }
  split; [exact H|]. split; [by vm_compute|].
  apply (counter_order_irrelevant cfg0 _ _ _ H). by vm_compute.
Defined.

(** The specification's example: two GET and five POST, in either order. *)
Example counter_GET_POST :
  let get := Some [("m", "GET")] in
  let post := Some [("m", "POST")] in
  let m := inc_all [("http", Some 5, post); ("http", None, get);
                    ("http", None, get)] (new cfg0) in
  Map_get (getKey m "http" get) (counters m) = Some 2 /\
  Map_get (getKey m "http" post) (counters m) = Some 5 /\
  length (counters m) = 2%nat.
Proof. repeat split. Qed.

(** *** Gauges *)

Lemma gauge_inc_get name value labels m :
  Map_get (getKey m name labels) (gauges (gauge_inc name value labels m))
  = Some (default 0 (Map_get (getKey m name labels) (gauges m))
          + default 1 value).
Proof. unfold gauge_inc. simpl. by rewrite Map_get_set_eq, or_zero_default. Qed.

Lemma gauge_dec_get name value labels m :
  Map_get (getKey m name labels) (gauges (gauge_dec name value labels m))
  = Some (default 0 (Map_get (getKey m name labels) (gauges m))
          - default 1 value).
Proof. unfold gauge_dec. simpl. by rewrite Map_get_set_eq, or_zero_default. Qed.

(** X3: on a gauge, [dec] undoes [inc] on the integer fragment.  When the
    reading [x] of a series (0 if it does not exist), the integer [d] (the
    default 1 when left out) and [x + d] lie within 2^53 in absolute value,
    the series reads [x + d] after [inc(d)] and [x] again after [dec(d)];
    no other gauge series and no counter or histogram is touched. *)
Theorem gauge_inc_dec_cancel (m : t) (name : string) (d : option Z)
    (labels : option Labels) :
  let key := getKey m name labels in
  let x := default 0 (Map_get key (gauges m)) in
  let m1 := gauge_inc name d labels m in
  let m' := gauge_dec name d labels m1 in
  exact x -> exact (default 1 d) -> exact (x + default 1 d) ->
  Map_get key (gauges m1) = Some (x + default 1 d) /\
  Map_get key (gauges m') = Some x /\
  (forall k, k <> key -> Map_get k (gauges m') = Map_get k (gauges m)) /\
  counters m' = counters m /\
  histograms m' = histograms m.
Proof.
  intros key x m1 m' _ _ _.
  split; [apply gauge_inc_get|]. split; [|split; [|done]].
  - assert (Hk : getKey (gauge_inc name d labels m) name labels = key)
      by reflexivity.
    unfold m', m1. rewrite <- Hk at 1. rewrite gauge_dec_get, Hk.
    unfold key. rewrite gauge_inc_get. simpl. f_equal. unfold x, key. lia.
  - intros k Hne. unfold m', m1, gauge_dec, gauge_inc. simpl.
    fold key. by rewrite !Map_get_set_ne.
Qed.

Lemma gauge_inc_dec_cancel_witness :
  let m := gauge_set "g" 7 None (new cfg0) in
  let key := getKey m "g" None in
  let x := default 0 (Map_get key (gauges m)) in
  let m1 := gauge_inc "g" (Some 5) None m in
  let m' := gauge_dec "g" (Some 5) None m1 in
  exact x /\ exact (default 1 (Some 5)) /\ exact (x + default 1 (Some 5)) /\
  Map_get key (gauges m1) = Some (x + default 1 (Some 5)) /\
  Map_get key (gauges m') = Some x /\
  (forall k, k <> key -> Map_get k (gauges m') = Map_get k (gauges m)) /\
  counters m' = counters m /\
  histograms m' = histograms m.
Proof.
  assert (He : forall n, - MAX_EXACT <= n <= MAX_EXACT -> exact n) by done.
  split; [apply He; by vm_compute|]. split; [apply He; by vm_compute|].
  split; [apply He; by vm_compute|].
  apply (gauge_inc_dec_cancel (gauge_set "g" 7 None (new cfg0)) "g" (Some 5)
           None); apply He; by vm_compute.
Defined.

Lemma run_config ops m : config (run ops m) = config m.
Proof.
  revert m. induction ops as [|op ops IH]; intros m; [done|].
  simpl. rewrite IH. by destruct op.
Qed.

Lemma run_cons op ops m : run (op :: ops) m = run ops (apply m op).
Proof. reflexivity. Qed.

Lemma run_app ops ops' m : run (ops ++ ops') m = run ops' (run ops m).
Proof. unfold run. by rewrite fold_left_app. Qed.

(** The value of a gauge series after an operation depends on its value
    before, and on the configuration, only. *)
Lemma apply_gauge_agree key op m m' :
  config m = config m' ->
  Map_get key (gauges m) = Map_get key (gauges m') ->
  Map_get key (gauges (apply m op)) = Map_get key (gauges (apply m' op)).
Proof.
  intros Hc Hg.
  destruct op as [n v l|n v l|n v l|n v l|n v l]; simpl; try done;
    unfold gauge_set, gauge_inc, gauge_dec; simpl;
    rewrite <- (getKey_config m m' n l Hc);
    (destruct (String.eqb_spec (getKey m n l) key) as [<-|Hne];
     [rewrite !Map_get_set_eq; by rewrite ?Hg
     |by rewrite !Map_get_set_ne]).
Qed.

Lemma run_gauge_agree key ops : forall m m',
  config m = config m' ->
  Map_get key (gauges m) = Map_get key (gauges m') ->
  Map_get key (gauges (run ops m)) = Map_get key (gauges (run ops m')).
Proof.
  induction ops as [|op ops IH]; intros m m' Hc Hg; [done|].
  simpl. apply IH; [by destruct op|by apply apply_gauge_agree].
Qed.

(** X4: [set] on a gauge erases the history of the series.  Whatever
    operations ran before the [set], the value the series has after any
    later run is the one it would have had the registry been fresh at the
    [set]. *)
Theorem gauge_set_erases_history (cfg : MetricsConfig)
    (before after : list Op) (name : string) (v : Z)
    (labels : option Labels) :
  let key := getKey (new cfg) name labels in
  Map_get key
    (gauges (run (before ++ GaugeSet name v labels :: after) (new cfg)))
  = Map_get key (gauges (run (GaugeSet name v labels :: after) (new cfg))).
Proof.
  intros key. rewrite run_app, !run_cons.
  apply run_gauge_agree; [simpl; apply run_config|].
  unfold apply, gauge_set. simpl.
  rewrite (getKey_config (run before (new cfg)) (new cfg))
    by apply run_config.
  unfold key. by rewrite Map_get_set_eq, String.eqb_refl.
Qed.

(** *** The series of a registry *)

Lemma apply_keys_NoDup m op :
  NoDup (counter_keys m) /\ NoDup (gauge_keys m) /\ NoDup (histogram_keys m) ->
  NoDup (counter_keys (apply m op)) /\ NoDup (gauge_keys (apply m op))
  /\ NoDup (histogram_keys (apply m op)).
Proof.
  intros (Hc & Hg & Hh).
  destruct op; simpl; unfold counter_keys, gauge_keys, histogram_keys; simpl;
    repeat split; try done; by apply Map_set_NoDup.
Qed.

(** X5: whatever operations ran on a fresh registry, no series key occurs
    twice in the counters, in the gauges or in the histograms: the
    exposition covers every series once. *)
Theorem registry_keys_unique (cfg : MetricsConfig) (ops : list Op) :
  let m := run ops (new cfg) in
  NoDup (counter_keys m) /\ NoDup (gauge_keys m) /\ NoDup (histogram_keys m).
Proof.
  intros m. unfold m.
  assert (H0 : NoDup (counter_keys (new cfg)) /\ NoDup (gauge_keys (new cfg))
               /\ NoDup (histogram_keys (new cfg))).
  { repeat split; apply NoDup_nil_2. }
  revert H0. generalize (new cfg) as m0.
  induction ops as [|op ops IH]; intros m0 H0; [done|].
  simpl. apply IH. by apply apply_keys_NoDup.
Qed.

Lemma apply_keys_prefix m op :
  counter_keys m `prefix_of` counter_keys (apply m op) /\
  gauge_keys m `prefix_of` gauge_keys (apply m op) /\
  histogram_keys m `prefix_of` histogram_keys (apply m op).
Proof.
  destruct op; simpl; unfold counter_keys, gauge_keys, histogram_keys; simpl;
    repeat split; try done; apply Map_set_prefix.
Qed.

(** X6: series are never removed and never move.  After any run of
    operations the keys a registry had, in their order, are an initial
    segment of the keys it has; new series come last. *)
Theorem registry_keys_grow (m : t) (ops : list Op) :
  counter_keys m `prefix_of` counter_keys (run ops m) /\
  gauge_keys m `prefix_of` gauge_keys (run ops m) /\
  histogram_keys m `prefix_of` histogram_keys (run ops m).
Proof.
  revert m. induction ops as [|op ops IH]; intros m; [done|].
  simpl. destruct (apply_keys_prefix m op) as (Hc & Hg & Hh).
  destruct (IH (apply m op)) as (Hc' & Hg' & Hh').
  repeat split; by etrans.
Qed.

(** *** The exposition *)

Lemma flat_map_length_const {A B} (f : A -> list B) (n : nat) (l : list A) :
  (forall x, length (f x) = n) -> length (flat_map f l) = (n * length l)%nat.
Proof.
  intros Hf. induction l as [|x l IH]; simpl; [lia|].
  rewrite length_app, Hf, IH. lia.
Qed.

(** X7: the exposition has two lines for every counter series, two for
    every gauge series and four for every histogram series, and nothing
    else; that of a fresh registry is the empty text. *)
Theorem exposition_line_count (m : t) (cfg : MetricsConfig) :
  length (prometheus_lines m)
  = (2 * length (counters m) + 2 * length (gauges m)
     + 4 * length (histograms m))%nat /\
  toPrometheus (new cfg) = EmptyString.
Proof.
  split; [|reflexivity].
  unfold prometheus_lines. rewrite !length_app.
  rewrite (flat_map_length_const (scalar_lines "counter") 2)
    by (intros; reflexivity).
  rewrite (flat_map_length_const (scalar_lines "gauge") 2)
    by (intros; reflexivity).
  rewrite (flat_map_length_const histogram_lines 4) by (intros; reflexivity).
  lia.
Qed.

Lemma counter_lines_emitted m key v :
  Map_get key (counters m) = Some v ->
  exists pre post,
    prometheus_lines m = pre ++ scalar_lines "counter" (key, v) ++ post.
Proof.
  intros H. apply Map_get_Some_split in H as (cpre & cpost & Hc).
  exists (flat_map (scalar_lines "counter") cpre),
         (flat_map (scalar_lines "counter") cpost
          ++ flat_map (scalar_lines "gauge") (gauges m)
          ++ flat_map histogram_lines (histograms m)).
  unfold prometheus_lines. rewrite Hc, flat_map_app. simpl.
  by rewrite <- !app_assoc.
Qed.

(** X8: after a run of [inc] calls whose values are integers with absolute
    values adding up to at most 2^53, every counter series that was
    incremented and whose prefixed name holds no opening brace appears in
    the exposition as the line [# TYPE <prefix_><name> counter] followed by
    [<prefix_><name>{<labels>} <sum>], the sum of what was added to the
    series, in decimal. *)
Theorem counter_exposition (cfg : MetricsConfig) (calls : list increment)
    (name : string) (labels : option Labels) :
  let m := inc_all calls (new cfg) in
  let n := key_prefix m +:+ name in
  let ls := labelStr labels in
  let key := n +:+ "{" +:+ ls +:+ "}" in
  under m key calls <> [] ->
  includes "{"%char n = false ->
  magnitude (map added calls) <= MAX_EXACT ->
  getKey m name labels = key /\
  exact (total m key calls) /\
  exists pre post,
    toPrometheus m = join newline (pre ++
      [ "# TYPE " +:+ n +:+ " counter";
        n +:+ "{" +:+ ls +:+ "} " +:+ pretty (total m key calls) ] ++ post).
Proof.
  intros m n ls key Hu Hn Hmag.
  assert (Hkey : getKey m name labels = key).
  { unfold getKey. fold (key_prefix m) (labelStr labels) ls.
    unfold key, n. by rewrite !app_assoc_s. }
  split; [done|]. split; [by apply total_exact|].
  assert (Hget : Map_get key (counters m) = Some (total m key calls)).
  { unfold m. rewrite inc_all_get. unfold total.
    rewrite !(under_config (new cfg) m) by (symmetry; apply inc_all_config).
    fold m. destruct (under m key calls); [done|]. simpl. by f_equal. }
  destruct (counter_lines_emitted m key _ Hget) as (pre & post & Hl).
  exists pre, post. unfold toPrometheus. rewrite Hl.
  unfold scalar_lines. simpl fst. simpl snd.
  destruct (series_name_getKey m name labels Hn) as [Hs _].
  rewrite Hkey in Hs. rewrite Hs. unfold Number_toString.
  do 4 f_equal. unfold key. by rewrite !app_assoc_s.
Qed.

Lemma counter_exposition_witness :
  let calls := [("hits", Some 2, None); ("hits", None, None)] in
  let m := inc_all calls (new prefixed) in
  let n := key_prefix m +:+ "hits" in
  let ls := labelStr None in
  let key := n +:+ "{" +:+ ls +:+ "}" in
  under m key calls <> [] /\
  includes "{"%char n = false /\
  magnitude (map added calls) <= MAX_EXACT /\
  getKey m "hits" None = key /\
  exact (total m key calls) /\
  exists pre post,
    toPrometheus m = join newline (pre ++
      [ "# TYPE " +:+ n +:+ " counter";
        n +:+ "{" +:+ ls +:+ "} " +:+ pretty (total m key calls) ] ++ post).
Proof.
  split; [done|]. split; [reflexivity|]. split; [by vm_compute|].
  apply (counter_exposition prefixed
           [("hits", Some 2, None); ("hits", None, None)] "hits" None);
    [done|reflexivity|by vm_compute].
Defined.

(** That exposition, computed: the prefix is part of the name. *)
Example counter_hits :
  toPrometheus (inc_all [("hits", Some 2, None); ("hits", None, None)]
                  (new prefixed))
  = join newline [ "# TYPE app_hits counter"; "app_hits{} 3" ].
Proof. reflexivity. Qed.

(** *** The shape of keys and lines *)





(** Where the hypotheses fail: a brace in the name cuts the TYPE name
    short, and a closing brace in a label value draws the [le] label into
    that value. *)
Example braces_in_names_and_values :
  scalar_lines "counter" (getKey (new cfg0) "a{b" None, 1)
  = [ "# TYPE a counter"; "a{b{} 1" ] /\
  bucket_line (getKey (new cfg0) "h" (Some [("path", "/{id}")])) 1
  = "h{path=" +:+ dquote +:+ "/{id,le=" +:+ dquote +:+ "+Inf" +:+ dquote
    +:+ "}" +:+ dquote +:+ "} 1".
Proof. split; reflexivity. Qed.

Lemma own_entries_two {V} (k1 k2 : string) (v1 v2 : V) :
  array_index k1 = None -> array_index k2 = None -> k1 <> k2 ->
  own_entries (obj_literal [(k1, v1); (k2, v2)]) = [(k1, v1); (k2, v2)].
Proof.
  intros H1 H2 Hne. unfold obj_literal. simpl.
  destruct (String.eqb_spec k1 k2); [done|].
  unfold own_entries. simpl. by rewrite H1, H2.
Qed.

Lemma own_entries_one {V} (k : string) (v : V) :
  array_index k = None -> own_entries (obj_literal [(k, v)]) = [(k, v)].
Proof. intros H. unfold own_entries, obj_literal. simpl. by rewrite H. Qed.

(** X11: label values are written into the series key as they are, quotes
    included.  A single label whose value spells out the end of one label
    and the start of another resolves to the very series of the two-label
    set, for any two distinct label names that are not array indices. *)
Theorem label_value_not_escaped (m : t) (name k1 v1 k2 v2 : string) :
  array_index k1 = None -> array_index k2 = None -> k1 <> k2 ->
  getKey m name
    (Some (obj_literal
             [(k1, v1 +:+ dquote +:+ "," +:+ k2 +:+ "=" +:+ dquote +:+ v2)]))
  = getKey m name (Some (obj_literal [(k1, v1); (k2, v2)])).
Proof.
  intros H1 H2 Hne. unfold getKey.
  rewrite own_entries_one, own_entries_two by done.
  simpl. unfold label_pair. simpl. do 3 f_equal.
  by rewrite !app_assoc_s.
Qed.

Lemma label_value_not_escaped_witness :
  let v := "GET" +:+ dquote +:+ "," +:+ "code" +:+ "=" +:+ dquote +:+ "200" in
  array_index "m" = None /\ array_index "code" = None /\ "m" <> "code" /\
  getKey (new cfg0) "http" (Some (obj_literal [("m", v)]))
  = getKey (new cfg0) "http"
      (Some (obj_literal [("m", "GET"); ("code", "200")])).
Proof.
  split; [reflexivity|]. split; [reflexivity|]. split; [done|].
  by apply (label_value_not_escaped (new cfg0) "http" "m" "GET" "code" "200").
Defined.

End MetricsMore.

(** ** More on spans and the tracer *)

Module TracingMore.
Import JS Tracing TracingRuns TracingOps TracingFacts.

#[local] Arguments slice_to : simpl never.
#[local] Arguments generateId : simpl never.

Lemma setAttribute_SpanImpl span key value w f t c :
  heap w !! span = Some (SpanImpl f t c) ->
  setAttribute span key value w
  = (Return span,
     with_heap
       (with_observed w
          (observed w ++ [Called span (Span.setAttribute key value)]))
       (<[span :=
            SpanImpl
              (Span.with_attributes f
                 (assign_attribute key value (Span.attributes f)))
              t c]> (heap w))).
Proof.
  intros H. unfold setAttribute, bind, observe, read, write, ret. simpl.
  rewrite H. reflexivity.
Qed.

Lemma assign_attribute_insert key value (attributes : gmap string Span.AttrVal) :
  key <> "__proto__" ->
  assign_attribute key value attributes = <[key := value]> attributes.
Proof.
  intros Hne. unfold assign_attribute.
  destruct (attributes !! key); [done|].
  by destruct (String.eqb_spec key "__proto__").
Qed.

Lemma addEvent_SpanImpl span name attributes w f t c :
  heap w !! span = Some (SpanImpl f t c) ->
  addEvent span name attributes w
  = (Return span,
     with_heap
       (with_ticks
          (with_observed w
             (observed w ++ [Called span (Span.addEvent name attributes)]))
          (S (ticks w)))
       (<[span :=
            SpanImpl
              (Span.with_events f
                 (Span.events f ++
                  [ {| Span.ev_name := name;
                       Span.ev_timestamp := clock w (ticks w);
                       Span.ev_attributes := attributes |} ]))
              t c]> (heap w))).
Proof.
  intros H. unfold addEvent, bind, observe, read, write, Date_now, ret. simpl.
  rewrite H. reflexivity.
Qed.

(** X12: on a sampled span [setAttribute], for a key other than
    [__proto__], returns the span itself, sets the one attribute, and leaves
    every other attribute, the status, the events, the times and the
    identifiers as they were; it does not read the clock and completes
    nothing; a second call on the same key overwrites.  (The key
    [__proto__] names the accessor plain objects inherit: a value assigned
    to it is not stored.) *)
Theorem setAttribute_frame (w : World) (span : addr) (f : Span.t) (t : addr)
    (c : TracerConfig) (key : string) (value value' : Span.AttrVal) :
  heap w !! span = Some (SpanImpl f t c) ->
  key <> "__proto__" ->
  let w' := (setAttribute span key value w).2 in
  (setAttribute span key value w).1 = Return span /\
  attribute_at w' span key = Some value /\
  (forall k, k <> key -> attribute_at w' span k = Span.attributes f !! k) /\
  span_at w' span
    = Some (Span.with_attributes f (<[key := value]> (Span.attributes f))) /\
  (forall a, a <> span -> heap w' !! a = heap w !! a) /\
  ticks w' = ticks w /\
  completions span (observed w') = completions span (observed w) /\
  attribute_at (setAttribute span key value' w').2 span key = Some value'.
Proof.
  intros H Hkey w'. pose proof (lookup_lt_Some _ _ _ H) as Hlt.
  unfold w'. rewrite (setAttribute_SpanImpl _ key value _ _ _ _ H).
  rewrite (assign_attribute_insert key value _ Hkey).
  simpl fst. simpl snd. set (w1 := with_heap _ _).
  assert (H1 : heap w1 !! span
               = Some (SpanImpl (Span.with_attributes f
                                   (<[key := value]> (Span.attributes f))) t c)).
  { simpl. by apply list_lookup_insert_eq. }
  split; [done|]. split.
  { unfold attribute_at. rewrite (span_at_intro _ _ _ _ _ H1). simpl.
    by rewrite lookup_insert_eq. }
  split.
  { intros k Hk. unfold attribute_at. rewrite (span_at_intro _ _ _ _ _ H1).
    simpl. by rewrite lookup_insert_ne. }
  split; [by apply (span_at_intro _ _ _ _ _ H1)|].
  split; [intros a Ha; simpl; by rewrite list_lookup_insert_ne|].
  split; [done|]. split.
  { simpl. rewrite completions_app. unfold completions at 2. simpl. lia. }
  rewrite (setAttribute_SpanImpl _ key value' _ _ _ _ H1).
  rewrite (assign_attribute_insert key value' _ Hkey). simpl snd.
  unfold attribute_at. erewrite span_at_intro.
  2:{ simpl. apply list_lookup_insert_eq. by rewrite length_insert. }
  simpl. by rewrite lookup_insert_eq.
Qed.

Lemma setAttribute_frame_witness :
  let w := (demo_span demo_world).2 in
  let f := demo_fields in
  let t := 0%nat in
  let c := demo_config (Some 1%Q) in
  let span := 1%nat in
  let value := Span.AStr "GET" in
  let value' := Span.AStr "POST" in
  heap w !! span = Some (SpanImpl f t c) /\
  "method" <> "__proto__" /\
  let w' := (setAttribute span "method" value w).2 in
  (setAttribute span "method" value w).1 = Return span /\
  attribute_at w' span "method" = Some value /\
  (forall k, k <> "method" -> attribute_at w' span k = Span.attributes f !! k) /\
  span_at w' span
    = Some (Span.with_attributes f (<["method" := value]> (Span.attributes f))) /\
  (forall a, a <> span -> heap w' !! a = heap w !! a) /\
  ticks w' = ticks w /\
  completions span (observed w') = completions span (observed w) /\
  attribute_at (setAttribute span "method" value' w').2 span "method"
    = Some value'.
Proof.
  split; [reflexivity|]. split; [discriminate|].
  apply (setAttribute_frame (demo_span demo_world).2 1%nat demo_fields 0%nat
           (demo_config (Some 1%Q))); [reflexivity|discriminate].
Defined.

(** A value assigned to [__proto__] is not stored: the span has no such
    attribute afterwards, and its attributes are as before. *)
Example setAttribute_proto_not_stored :
  let w := (demo_span demo_world).2 in
  let w' := (setAttribute 1%nat "__proto__" (Span.AStr "x") w).2 in
  (setAttribute 1%nat "__proto__" (Span.AStr "x") w).1 = Return 1%nat /\
  attribute_at w' 1%nat "__proto__" = None /\
  span_at w' 1%nat = span_at w 1%nat.
Proof. vm_compute. done. Qed.

(** What a run of [addEvent] calls does to a sampled span. *)
Lemma add_events_run names : forall w span f t c,
  heap w !! span = Some (SpanImpl f t c) ->
  exists w',
    add_events span names w = (Return tt, w') /\
    heap w' !! span
    = Some (SpanImpl
              (Span.with_events f
                 (Span.events f ++ events_from (clock w) (ticks w) names))
              t c) /\
    ticks w' = (ticks w + length names)%nat /\
    clock w' = clock w /\
    completions span (observed w') = completions span (observed w).
Proof.
  induction names as [|name names IH]; intros w span f t c H.
  - exists w. simpl. rewrite app_nil_r. split; [done|].
    split; [by destruct f|]. split; [lia|done].
  - pose proof (lookup_lt_Some _ _ _ H) as Hlt.
    simpl add_events.
    rewrite (bind_Return _ _ _ _ _ (addEvent_SpanImpl _ name None _ _ _ _ H)).
    set (w1 := with_heap _ _).
    assert (H1 : heap w1 !! span
                 = Some (SpanImpl
                           (Span.with_events f
                              (Span.events f ++
                               [ {| Span.ev_name := name;
                                    Span.ev_timestamp := clock w (ticks w);
                                    Span.ev_attributes := None |} ])) t c)).
    { simpl. by apply list_lookup_insert_eq. }
    destruct (IH w1 span _ t c H1) as (w' & Hrun & Hh & Ht & Hc & Hcomp).
    exists w'. split; [done|]. split.
    { rewrite Hh. simpl. by rewrite <- app_assoc. }
    split; [rewrite Ht; simpl; lia|]. split; [done|].
    rewrite Hcomp. simpl. rewrite completions_app.
    unfold completions at 2. simpl. lia.
Qed.

(** X13: [addEvent] appends.  After a run of [addEvent(name)] calls on a
    sampled span its events are the ones it had, followed by one event per
    call, in call order, each stamped with the clock reading of its call;
    attributes, status and [endTime] are as before. *)
Theorem addEvent_appends (w : World) (span : addr) (f : Span.t) (t : addr)
    (c : TracerConfig) (names : list string) :
  heap w !! span = Some (SpanImpl f t c) ->
  let w' := (add_events span names w).2 in
  (add_events span names w).1 = Return tt /\
  span_at w' span
    = Some (Span.with_events f
              (Span.events f ++ events_from (clock w) (ticks w) names)) /\
  ticks w' = (ticks w + length names)%nat /\
  completions span (observed w') = completions span (observed w).
Proof.
  intros H w'.
  destruct (add_events_run names w span f t c H)
    as (w1 & Hrun & Hh & Ht & _ & Hc).
  unfold w'. rewrite Hrun. simpl. split; [done|].
  split; [by apply (span_at_intro _ _ _ _ _ Hh)|]. done.
Qed.

Lemma addEvent_appends_witness :
  let w := (demo_span demo_world).2 in
  let f := demo_fields in
  let span := 1%nat in
  let names := ["received"; "parsed"] in
  heap w !! span = Some (SpanImpl f 0%nat (demo_config (Some 1%Q))) /\
  let w' := (add_events span names w).2 in
  (add_events span names w).1 = Return tt /\
  span_at w' span
    = Some (Span.with_events f
              (Span.events f ++ events_from (clock w) (ticks w) names)) /\
  ticks w' = (ticks w + length names)%nat /\
  completions span (observed w') = completions span (observed w).
Proof.
  split; [reflexivity|].
  apply (addEvent_appends (demo_span demo_world).2 1%nat demo_fields 0%nat
           (demo_config (Some 1%Q)) ["received"; "parsed"]).
  reflexivity.
Defined.

(** *** No-op spans *)

Lemma invoke_NoopSpan span call w f :
  heap w !! span = Some (NoopSpan f) ->
  exists fresh,
    invoke span call w
    = (Return tt,
       with_heap (with_observed w (observed w ++ [Called span call]))
         (heap w ++ fresh)).
Proof.
  intros H. destruct call; simpl.
  - exists [EmptyObject].
    unfold setAttribute, bind, observe, read, alloc, ret. simpl. by rewrite H.
  - exists [EmptyObject].
    unfold addEvent, bind, observe, read, alloc, ret. simpl. by rewrite H.
  - exists [EmptyObject]. unfold bind at 1.
    by rewrite (setStatus_NoopSpan _ _ _ _ _ H).
  - exists []. rewrite (end_NoopSpan _ _ _ H), app_nil_r.
    by destruct w.
Qed.

(** X14: a no-op span is inert.  Any run of [setAttribute], [addEvent],
    [setStatus] and [end] calls on it returns, changes no object that
    existed (the span included), reads neither the clock nor the random
    source, prints nothing and completes nothing: the calls themselves are
    all there is to observe. *)
Theorem noop_span_inert (calls : list Span.Call) (w : World) (span : addr)
    (f : Span.t) :
  heap w !! span = Some (NoopSpan f) ->
  let w' := (invoke_all span calls w).2 in
  (invoke_all span calls w).1 = Return tt /\
  heap w `prefix_of` heap w' /\
  ticks w' = ticks w /\
  draws w' = draws w /\
  observed w' = observed w ++ map (Called span) calls.
Proof.
  revert w. induction calls as [|call calls IH]; intros w H w'.
  - simpl. by rewrite app_nil_r.
  - destruct (invoke_NoopSpan span call w f H) as (fresh & Hrun).
    unfold w'. simpl invoke_all.
    rewrite (bind_Return _ _ _ _ _ Hrun).
    set (w1 := with_heap _ _).
    assert (H1 : heap w1 !! span = Some (NoopSpan f)).
    { simpl. rewrite lookup_app_l; [done|]. by eapply lookup_lt_Some. }
    destruct (IH w1 H1) as (Hr & Hp & Ht & Hd & Ho).
    split; [done|]. split.
    { etrans; [|exact Hp]. simpl. by apply prefix_app_r. }
    split; [by rewrite Ht|]. split; [by rewrite Hd|].
    rewrite Ho. simpl. by rewrite <- app_assoc.
Qed.

Lemma noop_span_inert_witness :
  let w := (unsampled_span demo_world).2 in
  let calls := [ Span.setAttribute "k" (Span.ANum 1);
                 Span.setStatus Span.error (Some "boom"); Span.end_;
                 Span.end_ ] in
  heap w !! 1%nat = Some (NoopSpan (noop_fields "work")) /\
  let w' := (invoke_all 1%nat calls w).2 in
  (invoke_all 1%nat calls w).1 = Return tt /\
  heap w `prefix_of` heap w' /\
  ticks w' = ticks w /\
  draws w' = draws w /\
  observed w' = observed w ++ map (Called 1%nat) calls.
Proof.
  split; [reflexivity|].
  by apply (noop_span_inert _ _ 1%nat (noop_fields "work")).
Defined.

(** *** Sampling *)





(** X16: a span under a no-op parent starts a trace of its own.  When
    [options.parent] is a no-op span, whose [traceId] is empty, and the
    sampling draw is below the rate, the new span's [traceId] is a fresh
    identifier of 32 lowercase hexadecimal characters, not the empty
    identifier of the parent. *)
Theorem fresh_trace_under_noop_parent (w : World) (this : addr)
    (config : TracerConfig) (spans : list addr) (name : string)
    (options : SpanOptions) (parent : addr) (fp : Span.t) :
  heap w !! this = Some (TracerObj config spans) ->
  opt_parent options = Some parent ->
  heap w !! parent = Some (NoopSpan fp) ->
  Span.traceId fp = EmptyString ->
  unit_draws w ->
  let rate :=
    match sampleRate config with
    | Some s => if Qeq_bool s 0 then 1%Q else s
    | None => 1%Q
    end in
  (random w (draws w) < rate)%Q ->
  let w' := (startSpan this name options w).2 in
  exists f,
    span_at w' (length (heap w)) = Some f /\
    hex_id 32 (Span.traceId f) /\
    Span.traceId f <> Span.traceId fp.
Proof.
  intros H Hp Hn He Hw rate Hr w'.
  pose proof (startSpan_run w this config spans name options H) as Hrun.
  change (sampleRate_or_one config) with rate in Hrun.
  rewrite (Qlt_bool_true _ _ Hr) in Hrun.
  destruct Hrun as (tid & sid & d & Hrun & Htid & _).
  unfold inherited_traceId in Htid. rewrite Hp, Hn, He in Htid.
  simpl in Htid. specialize (Htid Hw).
  unfold w'. rewrite Hrun. simpl snd. eexists. split.
  { apply (span_at_intro _ _ _ this config).
    by apply sampled_world_lookup_span. }
  split; [done|]. simpl. rewrite He.
  destruct Htid as [Hlen _]. by destruct tid.
Qed.

Lemma fresh_trace_under_noop_parent_witness :
  let w := (unsampled_span demo_world).2 in
  let this := 0%nat in
  let config := demo_config (Some (1 # 4)%Q) in
  let options := child_of 1%nat in
  let fp := noop_fields "work" in
  let w1 := {| NODE_ENV := NODE_ENV w; heap := heap w;
               random := fun _ => (1 # 8)%Q; draws := draws w;
               clock := clock w; ticks := ticks w;
               observed := observed w |} in
  heap w1 !! this = Some (TracerObj config []) /\
  opt_parent options = Some 1%nat /\
  heap w1 !! 1%nat = Some (NoopSpan fp) /\
  Span.traceId fp = EmptyString /\
  unit_draws w1 /\
  let rate :=
    match sampleRate config with
    | Some s => if Qeq_bool s 0 then 1%Q else s
    | None => 1%Q
    end in
  (random w1 (draws w1) < rate)%Q /\
  let w' := (startSpan this "child" options w1).2 in
  exists f,
    span_at w' (length (heap w1)) = Some f /\
    hex_id 32 (Span.traceId f) /\
    Span.traceId f <> Span.traceId fp.
Proof.
  assert (Hd : forall n : nat, (0 <= 1 # 8)%Q /\ (1 # 8 < 1)%Q).
  { intros n. split; [by compute|reflexivity]. }
  split; [reflexivity|]. split; [reflexivity|]. split; [reflexivity|].
  split; [reflexivity|]. split; [exact Hd|]. split; [reflexivity|].
  apply (fresh_trace_under_noop_parent _ 0%nat
           (demo_config (Some (1 # 4)%Q)) [] "child"
           (child_of 1%nat) 1%nat (noop_fields "work"));
    [reflexivity|reflexivity|reflexivity|reflexivity|exact Hd|reflexivity].
Defined.

(** *** The tracer's span list *)

Lemma start_all_spans (this : addr) (config : TracerConfig)
    (calls : list (string * SpanOptions)) : forall (w : World) spans,
  heap w !! this = Some (TracerObj config spans) ->
  sampleRate config = Some 1%Q ->
  unit_draws w ->
  let w' := start_all this calls w in
  spans_of w' this
    = Some (spans ++ seq (length (heap w)) (length calls)) /\
  length (heap w') = (length (heap w) + length calls)%nat.
Proof.
  induction calls as [|[name options] calls IH]; intros w spans H Hr Hw.
  - simpl. unfold spans_of. rewrite H, app_nil_r. split; [done|lia].
  - pose proof (startSpan_run w this config spans name options H) as Hrun.
    rewrite Qlt_bool_true in Hrun.
    2:{ unfold sampleRate_or_one. rewrite Hr. simpl. apply Hw. }
    destruct Hrun as (tid & sid & d & Hrun & _).
    pose proof (lookup_lt_Some _ _ _ H) as Hlt.
    simpl start_all. rewrite Hrun. simpl snd.
    set (w1 := sampled_world _ _ _ _ _ _).
    assert (H1 : heap w1 !! this
                 = Some (TracerObj config (spans ++ [length (heap w)]))).
    { simpl. apply list_lookup_insert_eq. rewrite length_app. lia. }
    assert (Hl : length (heap w1) = S (length (heap w))).
    { simpl. rewrite length_insert, length_app. simpl. lia. }
    destruct (IH w1 _ H1 Hr Hw) as (Hs & Hlen).
    cbv zeta. rewrite Hs, Hlen, Hl. simpl.
    split; [by rewrite <- app_assoc|lia].
Qed.

Lemma invoke_keeps_tracer span call w t config spans :
  heap w !! t = Some (TracerObj config spans) ->
  heap (invoke span call w).2 !! t = Some (TracerObj config spans).
Proof.
  intros H. pose proof (lookup_lt_Some _ _ _ H) as Hlt.
  assert (Hne : forall f t' c', heap w !! span = Some (SpanImpl f t' c') ->
                 span <> t).
  { intros f t' c' Hs ->. pose proof (eq_trans (eq_sym Hs) H). discriminate. }
  destruct (heap w !! span) as [[f t' c'|f| |c' s']|] eqn:Es.
  - specialize (Hne _ _ _ eq_refl). destruct call; simpl invoke.
    + unfold bind at 1. rewrite (setAttribute_SpanImpl _ _ _ _ _ _ _ Es).
      simpl. by rewrite list_lookup_insert_ne.
    + unfold bind at 1. rewrite (addEvent_SpanImpl _ _ _ _ _ _ _ Es).
      simpl. by rewrite list_lookup_insert_ne.
    + unfold bind at 1. rewrite (setStatus_SpanImpl _ _ _ _ _ _ _ Es).
      simpl. by rewrite list_lookup_insert_ne.
    + destruct (end_SpanImpl _ _ _ _ _ Es) as (w' & Hend & Hh & _).
      rewrite Hend. simpl. rewrite Hh. by rewrite list_lookup_insert_ne.
  - destruct (invoke_NoopSpan span call w f Es) as (fresh & ->).
    simpl. by rewrite lookup_app_l.
  - destruct call; simpl invoke;
      unfold setAttribute, addEvent, setStatus, end_, bind, read, throw;
      simpl; by rewrite Es.
  - destruct call; simpl invoke;
      unfold setAttribute, addEvent, setStatus, end_, bind, read, throw;
      simpl; by rewrite Es.
  - destruct call; simpl invoke;
      unfold setAttribute, addEvent, setStatus, end_, bind, read, throw;
      simpl; by rewrite Es.
Qed.

Lemma invoke_all_keeps_tracer span calls : forall w t config spans,
  heap w !! t = Some (TracerObj config spans) ->
  heap (invoke_all span calls w).2 !! t = Some (TracerObj config spans).
Proof.
  induction calls as [|call calls IH]; intros w t config spans H; [done|].
  simpl invoke_all. unfold bind.
  pose proof (invoke_keeps_tracer span call w t config spans H) as H1.
  destruct (invoke span call w) as [[[]|e] w1]; simpl in H1; [|done].
  by apply IH.
Qed.

Lemma spans_of_Some (w : World) (t : addr) (spans : list addr) :
  spans_of w t = Some spans ->
  exists config, heap w !! t = Some (TracerObj config spans).
Proof.
  unfold spans_of. destruct (heap w !! t) as [[| | |c s]|]; try done.
  intros [= <-]. by exists c.
Qed.

Lemma spans_of_intro (w : World) (t : addr) (config : TracerConfig)
    (spans : list addr) :
  heap w !! t = Some (TracerObj config spans) -> spans_of w t = Some spans.
Proof. unfold spans_of. by intros ->. Qed.

(** X17: the tracer holds on to every span it sampled.  On a tracer of
    rate 1 in a fresh world, after a run of [startSpan] calls the span list
    holds the spans created, in order; and no call on a span, [end]
    included, takes a span off the list. *)
Theorem tracer_keeps_every_span (w0 : World) (config : TracerConfig)
    (calls : list (string * SpanOptions)) (span : addr)
    (then_ : list Span.Call) :
  heap w0 = [] ->
  unit_draws w0 ->
  sampleRate config = Some 1%Q ->
  let this := 0%nat in
  let w := start_all this calls (new_Tracer config w0).2 in
  spans_of w this = Some (seq 1 (length calls)) /\
  spans_of (invoke_all span then_ w).2 this = Some (seq 1 (length calls)).
Proof.
  intros Hh Hw Hr this w.
  set (config' := {| tr_service := tr_service config;
                     tr_endpoint := tr_endpoint config;
                     sampleRate := Some (default 1%Q (sampleRate config)) |}).
  assert (Hnew : (new_Tracer config w0).2 = with_heap w0 [TracerObj config' []]).
  { unfold new_Tracer, alloc. by rewrite Hh. }
  destruct (start_all_spans this config' calls
              (with_heap w0 [TracerObj config' []]) [])
    as (Hs & _); [done|simpl; by rewrite Hr|done|].
  unfold w. rewrite Hnew. split; [exact Hs|].
  destruct (spans_of_Some _ _ _ Hs) as (c & E).
  apply (spans_of_intro _ _ c).
  by apply invoke_all_keeps_tracer.
Qed.

Lemma tracer_keeps_every_span_witness :
  let w0 := demo_world in
  let config := demo_config (Some 1%Q) in
  let calls := [("a", no_options); ("b", child_of 1%nat)] in
  heap w0 = [] /\
  unit_draws w0 /\
  sampleRate config = Some 1%Q /\
  let this := 0%nat in
  let w := start_all this calls (new_Tracer config w0).2 in
  spans_of w this = Some (seq 1 (length calls)) /\
  spans_of (invoke_all 1%nat [Span.end_; Span.end_] w).2 this
    = Some (seq 1 (length calls)).
Proof.
  assert (Hd : unit_draws demo_world).
  { intros n. split; [by compute|reflexivity]. }
  split; [reflexivity|]. split; [exact Hd|]. split; [reflexivity|].
  apply (tracer_keeps_every_span demo_world (demo_config (Some 1%Q))
           [("a", no_options); ("b", child_of 1%nat)] 1%nat
           [Span.end_; Span.end_]); [reflexivity|exact Hd|reflexivity].
Defined.

(** *** Completion *)

(** X18: what [end()] leaves to be seen on a sampled span.  It stamps
    [endTime] with the clock reading and runs the completion callback once;
    in development the callback prints one line,
    [[TRACE] <name> (<duration>ms) trace=<first 8 characters of traceId>],
    the duration counted from [startTime]; outside development it prints
    nothing.  A clock reading of 0 is taken for a missing [endTime]: the
    callback then reads the clock again. *)
Theorem end_prints (w : World) (span : addr) (f : Span.t) (t : addr)
    (c : TracerConfig) :
  heap w !! span = Some (SpanImpl f t c) ->
  let now := clock w (ticks w) in
  let dev := Core.isDev (NODE_ENV w) in
  let reread := dev && (now =? 0) in
  let finish := if reread then clock w (S (ticks w)) else now in
  let w' := (end_ span w).2 in
  (end_ span w).1 = Return tt /\
  span_at w' span = Some (Span.with_endTime f (Some now)) /\
  observed w'
    = observed w ++ [Called span Span.end_; Completed t span]
      ++ (if dev then [Console console_log (trace_line f finish)] else []) /\
  ticks w' = if reread then S (S (ticks w)) else S (ticks w).
Proof.
  intros H now dev reread finish w'. subst w' reread finish dev.
  pose proof (lookup_lt_Some _ _ _ H) as Hlt.
  unfold end_, onSpanEnd, console, observe, read, write, Date_now, ret, bind.
  simpl. rewrite H. simpl.
  destruct (Core.isDev (NODE_ENV w)); simpl.
  - fold now. destruct (now =? 0) eqn:E; simpl;
      (split; [done|]); (split;
        [unfold span_at; simpl; by rewrite list_lookup_insert_eq|]);
      (split; [by rewrite <- !app_assoc|done]).
  - split; [done|]. split.
    { unfold span_at. simpl. by rewrite list_lookup_insert_eq. }
    split; [by rewrite <- !app_assoc|done].
Qed.

Lemma end_prints_witness :
  let w := (demo_span dev_world).2 in
  let f := demo_fields in
  let span := 1%nat in
  heap w !! span = Some (SpanImpl f 0%nat (demo_config (Some 1%Q))) /\
  let now := clock w (ticks w) in
  let dev := Core.isDev (NODE_ENV w) in
  let reread := dev && (now =? 0) in
  let finish := if reread then clock w (S (ticks w)) else now in
  let w' := (end_ span w).2 in
  (end_ span w).1 = Return tt /\
  span_at w' span = Some (Span.with_endTime f (Some now)) /\
  observed w'
    = observed w ++ [Called span Span.end_; Completed 0%nat span]
      ++ (if dev then [Console console_log (trace_line f finish)] else []) /\
  ticks w' = if reread then S (S (ticks w)) else S (ticks w).
Proof.
  split; [reflexivity|].
  apply (end_prints (demo_span dev_world).2 1%nat demo_fields 0%nat
           (demo_config (Some 1%Q))).
  reflexivity.
Defined.

(** The line of that run. *)
Example end_prints_line :
  observed (end_ 1%nat (demo_span dev_world).2).2
  = [ Called 1%nat Span.end_; Completed 0%nat 1%nat;
      Console console_log "[TRACE] work (1ms) trace=88888888" ].
Proof. reflexivity. Qed.

(** X19: [end()] freezes nothing.  On a span that was ended, [setAttribute]
    (for a key other than [__proto__]) and [setStatus] still take effect;
    they leave the stamped [endTime] and do not run the completion callback
    again. *)
Theorem span_mutable_after_end (w : World) (span : addr) (f : Span.t)
    (t : addr) (c : TracerConfig) (key : string) (value : Span.AttrVal)
    (status : Span.Status) :
  heap w !! span = Some (SpanImpl f t c) ->
  key <> "__proto__" ->
  let w1 := (end_ span w).2 in
  let w2 := (setAttribute span key value w1).2 in
  let w3 := (setStatus span status None w2).2 in
  attribute_at w3 span key = Some value /\
  (Span.status <$> span_at w3 span) = Some status /\
  (Span.endTime <$> span_at w3 span) = Some (Some (clock w (ticks w))) /\
  completions span (observed w3) = completions span (observed w1).
Proof.
  intros H Hkey w1 w2 w3. pose proof (lookup_lt_Some _ _ _ H) as Hlt.
  destruct (end_SpanImpl _ _ _ _ _ H) as (w1' & Hend & Hh & _).
  assert (Hw1 : w1 = w1') by (unfold w1; by rewrite Hend). clearbody w1.
  subst w1'.
  assert (H1 : heap w1 !! span
               = Some (SpanImpl (Span.with_endTime f
                                   (Some (clock w (ticks w)))) t c)).
  { rewrite Hh. by apply list_lookup_insert_eq. }
  pose proof (lookup_lt_Some _ _ _ H1) as Hlt1.
  unfold w3, w2. rewrite (setAttribute_SpanImpl _ key value _ _ _ _ H1).
  rewrite (assign_attribute_insert key value _ Hkey).
  simpl snd. set (wa := with_heap _ _).
  assert (H2 : heap wa !! span
               = Some (SpanImpl
                         (Span.with_attributes
                            (Span.with_endTime f (Some (clock w (ticks w))))
                            (<[key := value]> (Span.attributes f))) t c)).
  { simpl. by apply list_lookup_insert_eq. }
  rewrite (setStatus_SpanImpl _ status None _ _ _ _ H2). simpl snd.
  unfold attribute_at, span_at. simpl.
  rewrite list_lookup_insert_eq by (by rewrite length_insert). simpl.
  rewrite lookup_insert_eq. repeat split.
  rewrite !completions_app. unfold completions at 2 3. simpl. lia.
Qed.

Lemma span_mutable_after_end_witness :
  let w := (demo_span demo_world).2 in
  let span := 1%nat in
  let value := Span.ABool true in
  heap w !! span = Some (SpanImpl demo_fields 0%nat (demo_config (Some 1%Q))) /\
  "late" <> "__proto__" /\
  let w1 := (end_ span w).2 in
  let w2 := (setAttribute span "late" value w1).2 in
  let w3 := (setStatus span Span.error None w2).2 in
  attribute_at w3 span "late" = Some value /\
  (Span.status <$> span_at w3 span) = Some Span.error /\
  (Span.endTime <$> span_at w3 span) = Some (Some (clock w (ticks w))) /\
  completions span (observed w3) = completions span (observed w1).
Proof.
  split; [reflexivity|]. split; [discriminate|].
  apply (span_mutable_after_end (demo_span demo_world).2 1%nat demo_fields
           0%nat (demo_config (Some 1%Q))); [reflexivity|discriminate].
Defined.

(** *** Identifiers *)

(** X20: [generateId(n)] returns [n] lowercase hexadecimal characters when
    the draws of [Math.random] lie in [0, 1); it draws [n] times and touches
    nothing else. *)
Theorem generateId_hex (n : nat) (w : World) :
  unit_draws w ->
  exists s,
    generateId n w = (Return s, with_draws w (draws w + n)) /\
    String.length s = n /\
    all_hex s = true.
Proof.
  intros Hw. destruct (generateId_spec n w) as (s & Hrun & Hs).
  exists s. split; [done|]. by apply Hs.
Qed.

Lemma generateId_hex_witness :
  unit_draws demo_world /\
  exists s,
    generateId 16 demo_world
    = (Return s, with_draws demo_world (draws demo_world + 16)) /\
    String.length s = 16%nat /\
    all_hex s = true.
Proof.
  assert (Hd : unit_draws demo_world).
  { intros n. split; [by compute|reflexivity]. }
  split; [exact Hd|]. by apply (generateId_hex 16 demo_world).
Defined.

(** Outside that range the identifier is malformed: a draw of 1 reads past
    the end of the digit string. *)
Example generateId_draw_of_one :
  (generateId 2 (world0 None (fun _ => 1%Q) (fun _ => 0))).1
  = Return "undefinedundefined".
Proof. reflexivity. Qed.

End TracingMore.

(** ** The logger, continued *)

Module LoggingMore.
Import JS JSON Logging LoggingRuns LoggingOps JSFacts LoggingFacts.

(** Induction on values through arrays and objects. *)
Lemma JsVal_nested_ind (P : JsVal -> Prop) :
  P JUndefined -> P JNull -> (forall b, P (JBool b)) ->
  (forall n, P (JNum n)) -> (forall s, P (JStr s)) ->
  (forall n, P (JBigInt n)) ->
  (forall xs, Forall P xs -> P (JArr xs)) ->
  (forall props, Forall (fun kv => P kv.2) props -> P (JObj props)) ->
  forall v, P v.
Proof.
  intros Hu Hn Hb Hnum Hs Hbig Harr Hobj. fix IH 1.
  intros [| |b|n|s|n|xs|props];
    [exact Hu|exact Hn|apply Hb|apply Hnum|apply Hs|apply Hbig|..].
  - apply Harr. induction xs as [|x xs IHxs]; constructor;
      [apply IH|exact IHxs].
  - apply Hobj. induction props as [|[k x] props IHp]; constructor;
      [apply IH|exact IHp].
Qed.

Lemma Serialize_JArr xs :
  SerializeJSONProperty (JArr xs)
  = match array_parts (map SerializeJSONProperty xs) with
    | inl e => inl e
    | inr l => inr (Some ("[" +:+ join "," l +:+ "]"))
    end.
Proof. reflexivity. Qed.

Lemma Serialize_JObj props :
  SerializeJSONProperty (JObj props)
  = match object_parts
            (own_entries
               (map (fun kv => let '(k, x) := kv in
                               (k, SerializeJSONProperty x)) props)) with
    | inl e => inl e
    | inr l => inr (Some ("{" +:+ join "," l +:+ "}"))
    end.
Proof. reflexivity. Qed.

Lemma bigint_free_JArr xs :
  bigint_free (JArr xs) = forallb bigint_free xs.
Proof. reflexivity. Qed.

Lemma bigint_free_JObj props :
  bigint_free (JObj props)
  = forallb (fun kv => let '(_, x) := kv in bigint_free x) props.
Proof. reflexivity. Qed.

(** *** What [Object.entries] enumerates *)

Section Entries.
Context {V : Type}.
Implicit Types (o : list (string * V)) (p : string * V).

Lemma insert_index_In n p (l : list (N * (string * V))) x :
  In x (insert_index n p l) -> x = (n, p) \/ In x l.
Proof.
  induction l as [|[m q] l IH]; simpl.
  - intros [<-|[]]. by left.
  - destruct (n <? m)%N; simpl.
    + intros [<-|H]; [by left|by right].
    + intros [<-|H]; [right; by left|].
      destruct (IH H) as [->|H']; [by left|right; by right].
Qed.

Lemma index_props_In o n p : In (n, p) (index_props o) -> In p o.
Proof.
  induction o as [|q o IH]; simpl; [done|].
  destruct (array_index q.1).
  - intros H. apply insert_index_In in H as [[= _ ->]|H]; [by left|].
    right. by apply IH.
  - intros H. right. by apply IH.
Qed.

Lemma named_props_In o p : In p (named_props o) -> In p o.
Proof.
  induction o as [|q o IH]; simpl; [done|].
  destruct (array_index q.1); simpl.
  - intros H. right. by apply IH.
  - intros [<-|H]; [by left|right; by apply IH].
Qed.

Lemma own_entries_In o p : In p (own_entries o) -> In p o.
Proof.
  unfold own_entries. intros H. apply in_app_or in H as [H|H].
  - apply in_map_iff in H as ([n q] & <- & H). by apply index_props_In in H.
  - by apply named_props_In.
Qed.

Lemma own_entries_Forall (P : string * V -> Prop) o :
  Forall P o -> Forall P (own_entries o).
Proof.
  rewrite !List.Forall_forall. intros H p Hp.
  by apply H, own_entries_In.
Qed.

Lemma Map_set_Forall (P : string * V -> Prop) k (v : V) o :
  (forall k', P (k', v)) -> Forall P o -> Forall P (Map_set k v o).
Proof.
  intros Hv. induction 1 as [|[k0 v0] o Hp Ho IH]; simpl.
  - by constructor.
  - destruct (String.eqb k0 k); constructor; auto.
Qed.

Lemma obj_literal_Forall (P : string * V -> Prop) (props : list (string * V)) :
  (forall k v, P (k, v) -> forall k', P (k', v)) ->
  Forall P props -> Forall P (obj_literal props).
Proof.
  intros Hk. unfold obj_literal.
  assert (forall acc, Forall P acc -> Forall P props ->
            Forall P (fold_left (fun o p => Map_set p.1 p.2 o) props acc))
    as H.
  { induction props as [|[k v] props IH]; intros acc Hacc Hp; [done|].
    inversion Hp as [|? ? Hkv Hrest]; subst. simpl. apply IH; [|done].
    apply Map_set_Forall; [|done]. intros k'. by apply (Hk k). }
  intros Hp. by apply H.
Qed.

(** In an object literal the last definition of a key wins. *)
Lemma Map_get_fold_set k (props : list (string * V)) : forall acc,
  Map_get k (fold_left (fun o p => Map_set p.1 p.2 o) props acc)
  = match Map_get k (obj_literal props) with
    | Some v => Some v
    | None => Map_get k acc
    end.
Proof.
  unfold obj_literal.
  induction props as [|[k0 v0] props IH]; intros acc; [done|].
  simpl. rewrite IH, (IH [(k0, v0)]).
  destruct (Map_get k (fold_left _ props [])) as [v|]; [done|]. simpl.
  destruct (String.eqb_spec k0 k) as [->|Hne].
  - by rewrite Map_get_set_eq.
  - by rewrite Map_get_set_ne.
Qed.

Lemma Map_get_obj_literal_app k (l1 l2 : list (string * V)) :
  Map_get k (obj_literal (l1 ++ l2))
  = match Map_get k (obj_literal l2) with
    | Some v => Some v
    | None => Map_get k (obj_literal l1)
    end.
Proof.
  unfold obj_literal at 1. rewrite fold_left_app.
  by rewrite Map_get_fold_set.
Qed.

Lemma Map_get_not_key k o : ~ In k (map fst o) -> Map_get k o = None.
Proof.
  induction o as [|[k' v] o IH]; simpl; [done|].
  intros H. destruct (String.eqb_spec k' k) as [->|Hne]; [tauto|].
  apply IH. tauto.
Qed.

Lemma Map_get_obj_literal_NoDup k o :
  NoDup (map fst o) -> Map_get k (obj_literal o) = Map_get k o.
Proof.
  induction o as [|[k0 v0] o IH]; [done|].
  simpl. intros Hnd. apply NoDup_cons in Hnd as [Hk0 Hnd].
  change ((k0, v0) :: o) with ([(k0, v0)] ++ o).
  rewrite Map_get_obj_literal_app, (IH Hnd). simpl.
  destruct (String.eqb_spec k0 k) as [->|Hne].
  - rewrite Map_get_not_key; [done|]. by rewrite <- list_elem_of_In.
  - by destruct (Map_get k o).
Qed.
End Entries.

Lemma Map_get_cons {V} k k' (v : V) (o : list (string * V)) :
  Map_get k ((k', v) :: o) = if String.eqb k' k then Some v else Map_get k o.
Proof. reflexivity. Qed.

(** *** Serialization *)

Lemma free_props_Forall (props : list (string * JsVal)) :
  forallb (fun kv => let '(_, x) := kv in bigint_free x) props = true
  <-> Forall (fun kv => bigint_free kv.2 = true) props.
Proof.
  rewrite forallb_forall, List.Forall_forall.
  split; intros H [k x] Hx; apply (H (k, x) Hx).
Qed.

Lemma array_parts_total (parts : list Serialized) :
  Forall (fun r => exists o, r = inr o) parts ->
  exists l, array_parts parts = inr l.
Proof.
  induction 1 as [|r parts [o ->] _ [l IH]]; simpl; [by exists []|].
  rewrite IH. by eexists.
Qed.

Lemma object_parts_total (entries : list (string * Serialized)) :
  Forall (fun kv => exists o, kv.2 = inr o) entries ->
  exists l, object_parts entries = inr l.
Proof.
  induction 1 as [|[k r] entries [o Ho] _ [l IH]]; simpl in *;
    [by exists []|].
  subst r. destruct o as [s|]; [rewrite IH; by eexists|by exists l].
Qed.

(** [JSON.stringify] throws on BigInt only. *)
Lemma bigint_free_serializes : forall v,
  bigint_free v = true -> exists o, SerializeJSONProperty v = inr o.
Proof.
  induction v as [| |b|n|s|n|xs IH|props IH] using JsVal_nested_ind;
    intros Hf; try done; try (by eexists).
  - rewrite bigint_free_JArr in Hf. rewrite Serialize_JArr.
    destruct (array_parts_total (map SerializeJSONProperty xs)) as [l ->];
      [|by eexists].
    apply List.Forall_map. rewrite List.Forall_forall in IH |- *.
    intros x Hx. apply IH; [done|].
    rewrite forallb_forall in Hf. by apply Hf.
  - rewrite bigint_free_JObj, free_props_Forall in Hf.
    rewrite Serialize_JObj.
    destruct (object_parts_total
                (own_entries
                   (map (fun kv => let '(k, x) := kv in
                                   (k, SerializeJSONProperty x)) props)))
      as [l ->]; [|by eexists].
    apply own_entries_Forall, List.Forall_map.
    rewrite List.Forall_forall in IH, Hf |- *.
    intros [k x] Hx. apply (IH (k, x) Hx), (Hf (k, x) Hx).
Qed.

Lemma json_record_bigint_free (entry : Log.Entry) :
  context_bigint_free (Log.context entry) = true ->
  bigint_free (JObj (json_record entry)) = true.
Proof.
  intros Hf. rewrite bigint_free_JObj, free_props_Forall.
  unfold json_record. apply obj_literal_Forall; [done|].
  apply Forall_app. split; [by repeat constructor|].
  apply Forall_app. split.
  - destruct (Log.context entry) as [c|]; [|constructor].
    apply own_entries_Forall. by apply free_props_Forall.
  - repeat constructor; simpl.
    + by destruct (Log.traceId entry).
    + by destruct (Log.spanId entry).
    + destruct (Log.error entry) as [e|]; [|done].
      rewrite bigint_free_JObj, free_props_Forall.
      apply obj_literal_Forall; [done|].
      repeat constructor. simpl. by destruct (err_stack e).
Qed.

Lemma formatEntry_total (this : Logger) (entry : Log.Entry) :
  context_bigint_free (Log.context entry) = true ->
  exists line, formatEntry this entry = inr line.
Proof.
  intros Hf. unfold formatEntry, stringify.
  destruct (pretty (config this)).
  - destruct (Log.context entry) as [c|] eqn:Ec.
    + destruct (0 <? length (own_entries c))%nat.
      * destruct (bigint_free_serializes (JObj c) Hf) as [o ->]. simpl.
        destruct (Tracing.truthy _); by eexists.
      * destruct (Tracing.truthy _); by eexists.
    + destruct (Tracing.truthy _); by eexists.
  - destruct (bigint_free_serializes _ (json_record_bigint_free entry Hf))
      as [o ->].
    by eexists.
Qed.

(** X21: a context of plain data never makes a logging call raise on the
    destinations that print.  Plain data is what [JsVal] holds, BigInt apart:
    [undefined], [null], booleans, numbers, strings, and arrays and plain
    objects of these, a finite tree without cycle, [toJSON] method or
    getter.  For such a context the call formats the entry and, at or above
    the minimum level, prints exactly that one line, with [console.error]
    for error and fatal and [console.warn] for warn on the console
    destination, and with [console.log] otherwise; below the level it does
    nothing. *)
Theorem bigint_free_context_logs (this : Logger) (l : Level.t)
    (message : string) (context : option (list (string * JsVal)))
    (err : option ErrorObj) (w : World) :
  destination (config this) <> Destination.custom ->
  context_bigint_free context = true ->
  exists line,
    formatEntry this (entry_of this l message context err w) = inr line /\
    call this l message context err w
    = if shouldLog this l
      then (Return tt,
            emit (Console (printing_method (destination (config this)) l)
                    line) (stamped w))
      else (Return tt, w).
Proof.
  intros Hd Hf.
  destruct (formatEntry_total this (entry_of this l message context err w))
    as [line Hline]; [done|].
  exists line. split; [done|].
  rewrite call_log, log_run. cbv zeta. unfold shouldLog.
  unfold entry_of in Hline. rewrite Hline.
  destruct (_ <=? _); [|done].
  by destruct (destination (config this)).
Qed.

Lemma bigint_free_context_logs_witness :
  let this := json_logger in
  let context := Some plain_context in
  destination (config this) <> Destination.custom /\
  context_bigint_free context = true /\
  exists line,
    formatEntry this (entry_of this Level.error "boom" context None log_world)
    = inr line /\
    call this Level.error "boom" context None log_world
    = if shouldLog this Level.error
      then (Return tt,
            emit (Console (printing_method (destination (config this))
                             Level.error) line) (stamped log_world))
      else (Return tt, log_world).
Proof.
  split; [discriminate|]. split; [reflexivity|].
  apply (bigint_free_context_logs json_logger Level.error "boom"
           (Some plain_context) None log_world); [discriminate|reflexivity].
Defined.

(** *** JSON lines *)

Lemma no_control_app (a b : string) :
  no_control_chars (a +:+ b) = no_control_chars a && no_control_chars b.
Proof.
  induction a as [|c a IH]; [done|].
  rewrite app_String.
  change (no_control_chars (String c (a +:+ b)))
    with ((32 <=? N_of_ascii c)%N && no_control_chars (a +:+ b)).
  change (no_control_chars (String c a))
    with ((32 <=? N_of_ascii c)%N && no_control_chars a).
  by rewrite IH, andb_assoc.
Qed.

Lemma pretty_N_char_printable (x : N) :
  (32 <=? N_of_ascii (pretty_N_char x))%N = true.
Proof. unfold pretty_N_char. by repeat case_match. Qed.

Lemma pretty_N_go_printable (x : N) : forall s,
  no_control_chars s = true -> no_control_chars (pretty_N_go x s) = true.
Proof.
  induction (N.lt_wf_0 x) as [x _ IH]; intros s Hs.
  destruct (decide (x = 0%N)) as [->|Hx]; [by rewrite pretty_N_go_0|].
  rewrite pretty_N_go_step by lia. apply IH; [apply N.div_lt; lia|].
  change (no_control_chars (String ?c s))
    with ((32 <=? N_of_ascii c)%N && no_control_chars s).
  by rewrite pretty_N_char_printable, Hs.
Qed.

Lemma Number_toString_printable (n : Z) :
  no_control_chars (Number_toString n) = true.
Proof.
  assert (forall p, no_control_chars (pretty.pretty (Npos p)) = true) as Hp.
  { intros p. unfold pretty.pretty, pretty_N. case_decide; [done|].
    by apply pretty_N_go_printable. }
  unfold Number_toString, pretty.pretty, pretty_Z.
  destruct n as [|p|p]; [done|..].
  - apply Hp.
  - rewrite no_control_app. unfold pretty.pretty, pretty_positive.
    by rewrite Hp.
Qed.

Lemma hex_digit_printable (n : N) : no_control_chars (hex_digit n) = true.
Proof.
  unfold hex_digit. generalize (N.to_nat n). intros k.
  do 16 (destruct k as [|k]; [reflexivity|]). reflexivity.
Qed.

Lemma escape_printable (a : ascii) : no_control_chars (escape a) = true.
Proof.
  unfold escape. cbv zeta.
  repeat match goal with
         | |- context [if ?b then _ else _] => destruct b eqn:?
         end; try reflexivity.
  - by rewrite !no_control_app, !hex_digit_printable.
  - change (no_control_chars (String a EmptyString))
      with ((32 <=? N_of_ascii a)%N && true).
    rewrite andb_true_r. apply N.leb_le. by apply N.ltb_ge.
Qed.

Lemma escape_all_printable (s : string) :
  no_control_chars (escape_all s) = true.
Proof.
  induction s as [|a s IH]; [done|].
  change (escape_all (String a s)) with (escape a +:+ escape_all s).
  by rewrite no_control_app, escape_printable, IH.
Qed.

Lemma QuoteJSONString_printable (s : string) :
  no_control_chars (QuoteJSONString s) = true.
Proof.
  unfold QuoteJSONString. by rewrite !no_control_app, escape_all_printable.
Qed.

Lemma join_printable (sep : string) (l : list string) :
  no_control_chars sep = true ->
  Forall (fun s => no_control_chars s = true) l ->
  no_control_chars (join sep l) = true.
Proof.
  intros Hsep. induction 1 as [|x l Hx Hl IH]; [done|].
  destruct l as [|y l]; [done|].
  change (join sep (x :: y :: l)) with (x +:+ sep +:+ join sep (y :: l)).
  by rewrite !no_control_app, Hx, Hsep, IH.
Qed.

Lemma array_parts_printable (parts : list Serialized) : forall l,
  Forall (fun r => forall s, r = inr (Some s) -> no_control_chars s = true)
    parts ->
  array_parts parts = inr l ->
  Forall (fun s => no_control_chars s = true) l.
Proof.
  induction parts as [|[e|o] parts IH]; intros l Hp; simpl.
  - intros [= <-]. constructor.
  - done.
  - inversion Hp as [|? ? Ho Hrest]; subst.
    destruct (array_parts parts) as [e|l']; [done|]. intros [= <-].
    constructor; [|by apply IH].
    destruct o as [s|]; [by apply Ho|done].
Qed.

Lemma object_parts_printable (entries : list (string * Serialized)) :
  forall l,
  Forall (fun kv => forall s, kv.2 = inr (Some s) ->
                    no_control_chars s = true) entries ->
  object_parts entries = inr l ->
  Forall (fun s => no_control_chars s = true) l.
Proof.
  induction entries as [|[k [e|[s|]]] entries IH]; intros l Hp; simpl.
  - intros [= <-]. constructor.
  - done.
  - inversion Hp as [|? ? Hs Hrest]; subst.
    destruct (object_parts entries) as [e|l']; [done|]. intros [= <-].
    constructor; [|by apply IH].
    rewrite !no_control_app, QuoteJSONString_printable.
    by rewrite (Hs s eq_refl).
  - inversion Hp; subst. by apply IH.
Qed.

(** What [JSON.stringify] returns holds no control character. *)
Lemma stringify_printable : forall v s,
  SerializeJSONProperty v = inr (Some s) -> no_control_chars s = true.
Proof.
  induction v as [| |b|n|t|n|xs IH|props IH] using JsVal_nested_ind;
    intros s.
  - done.
  - simpl. by intros [= <-].
  - simpl. intros [= <-]. by destruct b.
  - simpl. intros [= <-]. apply Number_toString_printable.
  - simpl. intros [= <-]. apply QuoteJSONString_printable.
  - done.
  - rewrite Serialize_JArr.
    destruct (array_parts (map SerializeJSONProperty xs)) as [e|l] eqn:E;
      [done|].
    intros [= <-]. rewrite !no_control_app.
    rewrite (join_printable "," l); [done|done|].
    apply (array_parts_printable _ _ (proj2 (List.Forall_map _ _ _) IH) E).
  - rewrite Serialize_JObj.
    destruct (object_parts _) as [e|l] eqn:E; [done|].
    intros [= <-]. rewrite !no_control_app.
    rewrite (join_printable "," l); [done|done|].
    eapply object_parts_printable; [|exact E].
    apply own_entries_Forall, List.Forall_map.
    eapply Forall_impl; [exact IH|]. by intros [k x].
Qed.

(** X22: in the JSON format an entry is printed on one line.  Whatever the
    message, the service, the context and the error hold, the text
    [formatEntry] returns has no character below U+0020: line breaks and
    other control characters of the input are escaped. *)
Theorem json_line_no_control_chars (this : Logger) (entry : Log.Entry)
    (line : string) :
  pretty (config this) = false ->
  formatEntry this entry = inr line ->
  no_control_chars line = true.
Proof.
  intros Hp. unfold formatEntry, stringify. rewrite Hp.
  pose proof (stringify_printable (JObj (json_record entry))) as H.
  destruct (SerializeJSONProperty (JObj (json_record entry)))
    as [e|[s|]]; simpl; [done| |].
  - intros [= <-]. by apply H.
  - by intros [= <-].
Qed.

Lemma json_line_no_control_chars_witness :
  no_control_chars (Log.message two_lines_entry) = false /\
  pretty (config json_logger) = false /\
  formatEntry json_logger two_lines_entry = inr two_lines_printed /\
  no_control_chars two_lines_printed = true.
Proof.
  split; [reflexivity|]. split; [reflexivity|].
  split; [vm_compute; reflexivity|].
  apply (json_line_no_control_chars json_logger two_lines_entry
           two_lines_printed); [reflexivity|vm_compute; reflexivity].
Defined.

(** The pretty format prints the message as it is: a line break in it
    breaks the printed line. *)
Example pretty_line_breaks :
  exists line,
    formatEntry pretty_logger
      (entry_of pretty_logger Level.error two_lines None None log_world)
    = inr line /\
    no_control_chars line = false.
Proof. eexists. split; [vm_compute; reflexivity|reflexivity]. Qed.

(** *** The fields of the JSON record *)

(** X23: which value a field of the JSON record takes when the context
    holds a property of the same name.  The context is spread after
    [timestamp], [level], [service] and [message] and before [traceId],
    [spanId] and [error]: a context property replaces the first four and
    any other name keeps its context value, while [traceId], [spanId] and
    [error] are always those of the entry ([undefined] when the entry has
    none, so the property is then left out of the line). *)
Theorem json_record_field_precedence (entry : Log.Entry)
    (c : list (string * JsVal)) (k : string) (v : JsVal) :
  Log.context entry = Some c ->
  NoDup (map fst (own_entries c)) ->
  Map_get k (own_entries c) = Some v ->
  Map_get k (json_record entry)
  = Some (if String.eqb k "traceId" then opt_str (Log.traceId entry)
          else if String.eqb k "spanId" then opt_str (Log.spanId entry)
          else if String.eqb k "error" then error_value (Log.error entry)
          else v).
Proof.
  intros Hc Hnd Hk. unfold json_record. rewrite Hc.
  rewrite Map_get_obj_literal_app, Map_get_obj_literal_app.
  rewrite (Map_get_obj_literal_NoDup k (own_entries c) Hnd), Hk.
  change (obj_literal [("traceId", ?a); ("spanId", ?b); ("error", ?e)])
    with [("traceId", a); ("spanId", b); ("error", e)].
  rewrite !Map_get_cons. fold (error_value (Log.error entry)).
  rewrite (String.eqb_sym k "traceId"), (String.eqb_sym k "spanId"),
    (String.eqb_sym k "error").
  destruct (String.eqb "traceId" k); [done|].
  destruct (String.eqb "spanId" k); [done|].
  by destruct (String.eqb "error" k).
Qed.

Lemma json_record_field_precedence_witness :
  let entry :=
    entry_of json_logger Level.error "boom" (Some traced_context) None
      log_world in
  Log.context entry = Some traced_context /\
  NoDup (map fst (own_entries traced_context)) /\
  Map_get "level" (own_entries traced_context) = Some (JStr "debug") /\
  Map_get "level" (json_record entry) = Some (JStr "debug").
Proof.
  assert (Hnd : NoDup (map fst (own_entries traced_context))).
  { change (NoDup ["traceId"; "level"]).
    apply NoDup_cons. split; [|apply NoDup_singleton].
    rewrite list_elem_of_singleton. discriminate. }
  split; [reflexivity|]. split; [exact Hnd|]. split; [reflexivity|].
  apply (json_record_field_precedence
           (entry_of json_logger Level.error "boom" (Some traced_context)
              None log_world) traced_context "level" (JStr "debug"));
    [reflexivity|exact Hnd|reflexivity].
Defined.

(** A [traceId] of the context does not reach the line when the logger has
    no trace context. *)
Example context_traceId_dropped :
  formatEntry json_logger
    (entry_of json_logger Level.error "boom" (Some traced_context) None
       log_world)
  = inr ("{" +:+ join ","
           [ dquote +:+ "timestamp" +:+ dquote +:+ ":" +:+ dquote
               +:+ "2023-11-14T22:13:20.000Z" +:+ dquote;
             dquote +:+ "level" +:+ dquote +:+ ":" +:+ dquote
               +:+ "debug" +:+ dquote;
             dquote +:+ "service" +:+ dquote +:+ ":" +:+ dquote
               +:+ "api" +:+ dquote;
             dquote +:+ "message" +:+ dquote +:+ ":" +:+ dquote
               +:+ "boom" +:+ dquote ] +:+ "}").
Proof. vm_compute. reflexivity. Qed.

End LoggingMore.
